(** * Kruskal visualisation: the union-find structure and [kruskalMST]

    A shallow embedding of the computational core of [script.js]
    (class [DisjointSet], function [kruskalMST]) and the properties of it
    that the specification states.

    Modelling conventions.
    - Vertex indices, vertex counts and weights are JavaScript numbers that
      the input layer obtains with [parseInt]: finite doubles with an
      integer value, modelled by that value ([Z]).  Comparing two of them,
      and the sign of their difference, is exact.  The running cost is a
      sum of doubles: it is rounded to the nearest double (ties to even)
      and overflows to an infinity, as the addition of the language does.
      The engine's array-length limit and memory or stack exhaustion are
      not modelled.
    - A JavaScript array is an object whose properties are read with
      [a[k]] and written with [a[k] = v]; reading a property that was never
      written yields [undefined].  The arrays [parent] and [rank] are
      modelled as finite maps from property keys to values, with the
      absent key read as [Undefined].
    - [find] is recursive on the mutable [parent] array; its embedding
      takes a recursion budget ([fuel]) and returns [None] when the budget
      is exhausted.  All results below show that a budget is enough. *)

From Stdlib Require Import ZArith Lia List Permutation Sorted Relations.
From stdpp Require Import base decidable countable gmap.

Local Open Scope Z_scope.

(** ** JavaScript values that occur in the two arrays *)

Inductive value : Type :=
| Num (z : Z)
| Undefined
| NaN.

#[global] Instance value_eq_dec : EqDecision value.
Proof. solve_decision. Defined.

Definition value_enc (v : value) : Z + bool :=
  match v with
  | Num z => inl z
  | Undefined => inr false
  | NaN => inr true
  end.

Definition value_dec (x : Z + bool) : value :=
  match x with
  | inl z => Num z
  | inr false => Undefined
  | inr true => NaN
  end.

#[global] Instance value_countable : Countable value.
Proof.
  apply (inj_countable' value_enc value_dec).
  intros [z| |]; reflexivity.
Defined.

(** [a === b] *)
Definition strict_eq (a b : value) : bool :=
  match a, b with
  | Num x, Num y => x =? y
  | Undefined, Undefined => true
  | _, _ => false
  end.

(** [a > b] and [a < b]: a comparison with [undefined] or [NaN] is false. *)
Definition js_gt (a b : value) : bool :=
  match a, b with
  | Num x, Num y => y <? x
  | _, _ => false
  end.

Definition js_lt (a b : value) : bool := js_gt b a.

(** [a++] stores [ToNumber(a) + 1]. *)
Definition js_incr (a : value) : value :=
  match a with
  | Num x => Num (x + 1)
  | _ => NaN
  end.

(** ** Arrays as property maps *)

Definition get (a : gmap value value) (k : value) : value :=
  match a !! k with
  | Some v => v
  | None => Undefined
  end.

Definition set (a : gmap value value) (k v : value) : gmap value value :=
  <[k := v]> a.

(** The indices [0 .. n-1]. *)
Definition Zseq (n : Z) : list Z := map Z.of_nat (seq 0 (Z.to_nat n)).

(** An array of [n] elements, the element at index [i] being [f i]:
    [Array.from({ length: n }, (_, i) => f i)]. *)
Fixpoint array_init_nat (n : nat) (f : Z -> value) : gmap value value :=
  match n with
  | O => ∅
  | S m => <[Num (Z.of_nat m) := f (Z.of_nat m)]> (array_init_nat m f)
  end.

Definition array_init (n : Z) (f : Z -> value) : gmap value value :=
  array_init_nat (Z.to_nat n) f.

(** ** Completions *)

(** [RangeError] is what [Array(n)] throws for a negative length;
    [IndexOutOfBounds] and [InvalidArgument] are the two errors of the
    specification's taxonomy.  No operation of the code raises them. *)
Inductive error : Type :=
| RangeError
| IndexOutOfBounds
| InvalidArgument.

Inductive completion (A : Type) : Type :=
| Normal (a : A)
| Throw (e : error).
Arguments Normal {A} a.
Arguments Throw {A} e.

(** ** class DisjointSet *)

Record DisjointSet : Type := mkDSU {
  parent : gmap value value;
  rank : gmap value value
}.

Definition set_parent (s : DisjointSet) (k v : value) : DisjointSet :=
  mkDSU (set (parent s) k v) (rank s).

Definition set_rank (s : DisjointSet) (k v : value) : DisjointSet :=
  mkDSU (parent s) (set (rank s) k v).

(** [new DisjointSet(n)]: [Array(n)] throws a RangeError for negative [n]
    (after [Array.from] has built an empty [parent]). *)
Definition constructor (n : Z) : completion DisjointSet :=
  if n <? 0 then Throw RangeError
  else Normal (mkDSU (array_init n Num) (array_init n (fun _ => Num 0))).

Fixpoint find (fuel : nat) (s : DisjointSet) (i : value)
  : option (DisjointSet * value) :=
  match fuel with
  | O => None
  | S fuel' =>
    if strict_eq (get (parent s) i) i then Some (s, i)
    else
      match find fuel' s (get (parent s) i) with
      | None => None
      | Some (s1, r) =>
        let s2 := set_parent s1 i r in
        Some (s2, get (parent s2) i)
      end
  end.

Definition union (fuel : nat) (s : DisjointSet) (x y : value)
  : option (DisjointSet * bool) :=
  match find fuel s x with
  | None => None
  | Some (s1, rootX) =>
    match find fuel s1 y with
    | None => None
    | Some (s2, rootY) =>
      if negb (strict_eq rootX rootY) then
        if js_gt (get (rank s2) rootX) (get (rank s2) rootY) then
          Some (set_parent s2 rootY rootX, true)
        else if js_lt (get (rank s2) rootX) (get (rank s2) rootY) then
          Some (set_parent s2 rootX rootY, true)
        else
          let s3 := set_parent s2 rootY rootX in
          Some (set_rank s3 rootX (js_incr (get (rank s3) rootX)), true)
      else Some (s2, false)
    end
  end.

(** ** Sums of numbers *)

(** A number that a sum of weights can be: a double with an integer
    value, or an infinity. *)
Inductive number : Type :=
| Fin (z : Z)
| PosInfinity
| NegInfinity.

(** The distance between neighbouring doubles around [z]: 53 significant
    bits. *)
Definition ulp (z : Z) : Z := 2 ^ Z.max 0 (Z.log2 (Z.abs z) - 52).

(** The multiple of [ulp z] nearest to [z], the even one of two equally
    near. *)
Definition round_nearest_even (z : Z) : Z :=
  let u := ulp z in
  let q := z / u in
  let r := z mod u in
  if 2 * r <? u then q * u
  else if u <? 2 * r then (q + 1) * u
  else if Z.even q then q * u else (q + 1) * u.

(** From here on a sum rounds to an infinity: the largest double is
    [2^1024 - 2^971]. *)
Definition double_limit : Z := 2 ^ 1024 - 2 ^ 970.

Definition round_double (z : Z) : number :=
  if double_limit <=? z then PosInfinity
  else if z <=? - double_limit then NegInfinity
  else Fin (round_nearest_even z).

(** [a + w] for a sum [a] and a weight [w]. *)
Definition js_add (a : number) (w : Z) : number :=
  match a with
  | Fin z => round_double (z + w)
  | PosInfinity => PosInfinity
  | NegInfinity => NegInfinity
  end.

(** ** function kruskalMST *)

Record Edge : Type := mkEdge {
  source : Z;
  destination : Z;
  weight : Z
}.

#[global] Instance Edge_eq_dec : EqDecision Edge.
Proof. solve_decision. Defined.

(** [Array.prototype.sort] is stable: an element is placed before the
    first element of the sorted remainder that the comparator does not
    order strictly before it. *)
Fixpoint sort_insert (cmp : Edge -> Edge -> Z) (x : Edge) (l : list Edge)
  : list Edge :=
  match l with
  | [] => [x]
  | y :: l' =>
    if cmp x y <=? 0 then x :: y :: l' else y :: sort_insert cmp x l'
  end.

Fixpoint sort (cmp : Edge -> Edge -> Z) (l : list Edge) : list Edge :=
  match l with
  | [] => []
  | x :: l' => sort_insert cmp x (sort cmp l')
  end.

(** [a.weight - b.weight]; the sort looks at its sign only, which the
    rounding of the difference keeps. *)
Definition by_weight (a b : Edge) : Z := weight a - weight b.

Record MSTResult : Type := mkResult {
  mst : list Edge;
  cost : number
}.

(** The [for ... of] loop; [edges] is what remains to be visited. *)
Fixpoint kruskal_loop (fuel : nat) (V : Z) (edges : list Edge)
    (dsu : DisjointSet) (resultMST : list Edge) (totalCost : number)
  : option MSTResult :=
  match edges with
  | [] => Some (mkResult resultMST totalCost)
  | edge :: rest =>
    if Z.of_nat (length resultMST) =? V - 1 then
      Some (mkResult resultMST totalCost)
    else
      match union fuel dsu (Num (source edge)) (Num (destination edge)) with
      | None => None
      | Some (dsu', true) =>
        kruskal_loop fuel V rest dsu' (resultMST ++ [edge])
                     (js_add totalCost (weight edge))
      | Some (dsu', false) =>
        kruskal_loop fuel V rest dsu' resultMST totalCost
      end
  end.

(** The outcome of a call: the caller's array as the call leaves it (the
    sort is in place) and the completion of the call. *)
Record Outcome : Type := mkOutcome {
  allEdges_after : list Edge;
  completed : completion MSTResult
}.

Definition kruskalMST (fuel : nat) (V : Z) (allEdges : list Edge)
  : option Outcome :=
  let sorted := sort by_weight allEdges in
  match constructor V with
  | Throw e => Some (mkOutcome sorted (Throw e))
  | Normal dsu =>
    match kruskal_loop fuel V sorted dsu [] (Fin 0) with
    | None => None
    | Some r => Some (mkOutcome sorted (Normal r))
    end
  end.

(** ** Graphs given by edge lists *)

(** [linked F u v]: some edge of [F] goes from [u] to [v]. *)
Definition linked (F : list Edge) (u v : Z) : Prop :=
  exists e, In e F /\ source e = u /\ destination e = v.

(** Connectivity in the undirected graph with edge list [F]. *)
Definition conn (F : list Edge) : Z -> Z -> Prop :=
  clos_refl_sym_trans Z (linked F).

(** A forest: every edge is a bridge, that is, its end points are not
    connected by the other edges. *)
Definition forest (F : list Edge) : Prop :=
  forall F1 e F2,
    F = F1 ++ e :: F2 -> ~ conn (F1 ++ F2) (source e) (destination e).

(** The same, edge after edge: each edge joins two vertices that the
    edges after it in the list leave apart. *)
Fixpoint acyclic (F : list Edge) : Prop :=
  match F with
  | [] => True
  | e :: F' => ~ conn F' (source e) (destination e) /\ acyclic F'
  end.

Definition spanning_forest (G F : list Edge) : Prop :=
  incl F G /\ forest F /\ forall u v, conn G u v -> conn F u v.

Definition sum_weights (l : list Edge) : Z :=
  fold_right (fun e acc => weight e + acc) 0 l.

(** The weights of [l] added one after the other, as the loop adds them,
    starting from [a]. *)
Definition js_sum (a : number) (l : list Edge) : number :=
  fold_left (fun c e => js_add c (weight e)) l a.

(** The sum of the absolute values of the weights. *)
Definition sum_abs (l : list Edge) : Z :=
  fold_right (fun e acc => Z.abs (weight e) + acc) 0 l.

Definition minimum_spanning_forest_weight (G : list Edge) (c : Z) : Prop :=
  (exists F, spanning_forest G F /\ sum_weights F = c) /\
  (forall F, spanning_forest G F -> c <= sum_weights F).

Definition in_range (V : Z) (e : Edge) : Prop :=
  (0 <= source e < V) /\ (0 <= destination e < V).

Definition le_weight (a b : Edge) : Prop := weight a <= weight b.

(** A canonical vertex of each component, computed edge by edge. *)
Fixpoint label (F : list Edge) (x : Z) : Z :=
  match F with
  | [] => x
  | e :: F' =>
    if label F' x =? label F' (destination e) then label F' (source e)
    else label F' x
  end.

Definition connb (F : list Edge) (u v : Z) : bool :=
  label F u =? label F v.

(** The canonical vertices among [0 .. V-1], one per component. *)
Definition roots (V : Z) (F : list Edge) : list Z :=
  List.filter (fun i => label F i =? i) (Zseq V).

(** The edges of weight at most [t], and their number. *)
Definition upto (t : Z) (l : list Edge) : list Edge :=
  List.filter (fun e => weight e <=? t) l.

Definition count_le (t : Z) (l : list Edge) : nat := length (upto t l).

(** Kruskal's selection with the connectivity test done on the graph of
    the edges accepted so far. *)
Fixpoint greedy (V : Z) (edges acc : list Edge) : list Edge :=
  match edges with
  | [] => acc
  | e :: rest =>
    if Z.of_nat (length acc) =? V - 1 then acc
    else if connb acc (source e) (destination e) then greedy V rest acc
    else greedy V rest (acc ++ [e])
  end.



(** ** The forest stored in [parent] *)

(** [repr s k r]: following [parent] from [k] ends in the root [r]. *)
Inductive repr (s : DisjointSet) : value -> value -> Prop :=
| repr_root k : get (parent s) k = k -> repr s k k
| repr_step k r :
    get (parent s) k <> k -> repr s (get (parent s) k) r -> repr s k r.

(** The parent relation is acyclic and finite: a height [h], bounded by
    [B], increases strictly from every non-root to its parent. *)
Definition ranked (s : DisjointSet) (h : value -> nat) (B : nat) : Prop :=
  (forall k,
     get (parent s) k <> NaN /\
     (get (parent s) k = k \/ (h k < h (get (parent s) k))%nat)) /\
  (forall k, (h k <= B)%nat).

(** What path compression may do to a state: [rank] is untouched and an
    entry of [parent] either stays or, for a non-root, is redirected to
    the root of its tree. *)
Definition compression (s s' : DisjointSet) : Prop :=
  rank s' = rank s /\
  forall k,
    parent s' !! k = parent s !! k \/
    exists r, parent s' !! k = Some r /\ repr s k r /\ get (parent s) k <> k.

(** The entries for [0 .. n-1] hold numbers, those of [parent] in range. *)
Definition in_bounds (n : Z) (s : DisjointSet) : Prop :=
  forall i, 0 <= i < n ->
    (exists p, parent s !! Num i = Some (Num p) /\ 0 <= p < n) /\
    (exists r, rank s !! Num i = Some (Num r)).

(** Where a root goes when the root [c] is linked below [p]. *)
Definition redirect (c p r : value) : value :=
  if decide (r = c) then p else r.

(** The partition generated by a relation on vertices. *)
Definition add_pair (x y : Z) (R : Z -> Z -> Prop) (u v : Z) : Prop :=
  R u v \/ (u = x /\ v = y).

(** The roots of the structure tell the components of [R] apart. *)
Definition tracks (n : Z) (s : DisjointSet) (R : Z -> Z -> Prop) : Prop :=
  forall u v ru rv,
    0 <= u < n -> 0 <= v < n ->
    repr s (Num u) ru -> repr s (Num v) rv ->
    (ru = rv <-> clos_refl_sym_trans Z R u v).

Definition within (n : Z) (R : Z -> Z -> Prop) : Prop :=
  forall u v, R u v -> 0 <= u < n /\ 0 <= v < n.

Definition dsu_inv (n : Z) (s : DisjointSet) (B : nat)
    (R : Z -> Z -> Prop) : Prop :=
  (exists h, ranked s h B) /\ in_bounds n s /\ tracks n s R.

(** The pairs given to [union] so far, and the states that calls of
    [find] and [union] with indices in [0 .. n-1] lead to. *)
Definition united (us : list (Z * Z)) (u v : Z) : Prop := In (u, v) us.

Inductive reachable (n : Z) : DisjointSet -> list (Z * Z) -> Prop :=
| reach_new s : constructor n = Normal s -> reachable n s []
| reach_find s us fuel i s' r :
    reachable n s us -> 0 <= i < n ->
    find fuel s (Num i) = Some (s', r) ->
    reachable n s' us
| reach_union s us fuel x y s' b :
    reachable n s us -> 0 <= x < n -> 0 <= y < n ->
    union fuel s (Num x) (Num y) = Some (s', b) ->
    reachable n s' ((x, y) :: us).

(** ** Example inputs *)

Definition scenario1 : list Edge :=
  [mkEdge 0 1 10; mkEdge 0 2 6; mkEdge 0 3 5; mkEdge 1 3 15; mkEdge 2 3 4].


(** A state with a path of length two, 3 -> 2 -> 0, built by
    [union(0,1)], [union(2,3)], [union(0,2)] on four fresh elements. *)
Definition fresh (n : Z) : DisjointSet :=
  mkDSU (array_init n Num) (array_init n (fun _ => Num 0)).

Definition after_union (s : DisjointSet) (x y : Z) : DisjointSet :=
  match union 4 s (Num x) (Num y) with
  | Some (s', _) => s'
  | None => s
  end.

Definition chain_state : DisjointSet :=
  after_union (after_union (after_union (fresh 4) 0 1) 2 3) 0 2.

(** ** The structure seen as a forest: paths and number of sets *)

(** [on_path s k j]: [find(k)] visits [j] on its way to the root. *)
Inductive on_path (s : DisjointSet) : value -> value -> Prop :=
| path_here k : on_path s k k
| path_next k j :
    get (parent s) k <> k -> on_path s (get (parent s) k) j ->
    on_path s k j.

(** [parent[i] === i] *)
Definition is_root (s : DisjointSet) (i : Z) : bool :=
  strict_eq (get (parent s) (Num i)) (Num i).

(** The number of sets: the roots among [0 .. n-1]. *)
Definition nroots (n : Z) (s : DisjointSet) : nat :=
  length (List.filter (is_root s) (Zseq n)).

(** Union by rank: ranks are natural numbers, grow strictly from a vertex
    to its parent, and no rank exceeds the number of merges done. *)
Definition rank_inv (n : Z) (s : DisjointSet) : Prop :=
  forall i, 0 <= i < n ->
    exists p ri rp,
      parent s !! Num i = Some (Num p) /\ 0 <= p < n /\
      rank s !! Num i = Some (Num ri) /\
      rank s !! Num p = Some (Num rp) /\
      0 <= ri /\ (p = i \/ ri < rp) /\
      ri + Z.of_nat (nroots n s) <= n.

(** ** function calculateAndDisplayMST *)

(** One line of the form: what [parseInt] made of the three fields, [None]
    standing for [NaN]. *)
Record Row : Type := mkRow {
  source_field : option Z;
  destination_field : option Z;
  weight_field : option Z
}.

(** What the page shows after the click: the alert for row [i + 1], or the
    total cost, the list of selected edges and, possibly, the note that the
    graph may not be connected. *)
Inductive View : Type :=
| Alerted (row : nat)
| Displayed (total_cost : number) (mst_edges : list Edge) (note : bool).

(** The loop over the rows, from row [i] on, [allEdges] being what was
    pushed so far: [inr k] when the alert for row [k] stops it. *)
Fixpoint collect_edges (V : Z) (rows : list Row) (i : nat)
    (allEdges : list Edge) : list Edge + nat :=
  match rows with
  | [] => inl allEdges
  | row :: rest =>
    match source_field row, destination_field row, weight_field row with
    | Some source, Some destination, Some weight =>
      if (source <? 0) || (source >=? V) ||
         (destination <? 0) || (destination >=? V)
      then inr (i + 1)%nat
      else collect_edges V rest (S i)
             (allEdges ++ [mkEdge source destination weight])
    | _, _, _ => inr (i + 1)%nat
    end
  end.

(** The vertex count is taken to be an integer (the field is not [NaN]). *)
Definition calculateAndDisplayMST (fuel : nat) (V : Z) (rows : list Row)
  : option (completion View) :=
  match collect_edges V rows 0 [] with
  | inr k => Some (Normal (Alerted k))
  | inl allEdges =>
    match kruskalMST fuel V allEdges with
    | None => None
    | Some o =>
      match completed o with
      | Throw e => Some (Throw e)
      | Normal r =>
        Some (Normal
          (Displayed (cost r) (mst r)
             ((Z.of_nat (length (mst r)) <? V - 1) && (1 <? V))))
      end
    end
  end.

(** The row that the form holds for an edge, and the rows that pass the
    checks of the loop. *)
Definition edge_row (e : Edge) : Row :=
  mkRow (Some (source e)) (Some (destination e)) (Some (weight e)).

Definition valid_row (V : Z) (row : Row) : Prop :=
  exists e, row = edge_row e /\ in_range V e.

(** * Connectivity *)

Section Connectivity.

Lemma conn_refl F u : conn F u u.
Proof. apply rst_refl. Qed.

Lemma conn_sym F u v : conn F u v -> conn F v u.
Proof. apply rst_sym. Qed.

Lemma conn_trans F u v w : conn F u v -> conn F v w -> conn F u w.
Proof. apply rst_trans. Qed.

Lemma conn_edge F e : In e F -> conn F (source e) (destination e).
Proof. intros H. apply rst_step. exists e. auto. Qed.

(** Connectivity only grows when every edge of [F] is connected in [G]. *)
Lemma conn_sub F G :
  (forall e, In e F -> conn G (source e) (destination e)) ->
  forall u v, conn F u v -> conn G u v.
Proof.
  intros HFG u v H.
  induction H as [u v (e & He & <- & <-)|u|u v _ IH|u v w _ IH1 _ IH2].
  - auto.
  - apply conn_refl.
  - apply conn_sym, IH.
  - eapply conn_trans; eauto.
Qed.

Lemma conn_incl F G : incl F G -> forall u v, conn F u v -> conn G u v.
Proof. intros H. apply conn_sub. intros e He. apply conn_edge, H, He. Qed.

End Connectivity.

(** * The canonical labelling decides connectivity *)

Lemma label_cons e F x :
  label (e :: F) x =
  if label F x =? label F (destination e) then label F (source e)
  else label F x.
Proof. reflexivity. Qed.

Lemma label_idem F x : label F (label F x) = label F x.
Proof.
  revert x. induction F as [|e F IH]; intros x; [reflexivity|].
  rewrite !label_cons.
  destruct (label F x =? label F (destination e)) eqn:Hx.
  - rewrite IH. destruct (label F (source e) =? _); reflexivity.
  - rewrite IH, Hx. reflexivity.
Qed.

Lemma label_conn_self F x : conn F x (label F x).
Proof.
  revert x. induction F as [|e F IH]; intros x; [apply conn_refl|].
  assert (Hup : forall u v, conn F u v -> conn (e :: F) u v).
  { apply conn_incl. intros a Ha. right. exact Ha. }
  rewrite label_cons.
  destruct (label F x =? label F (destination e)) eqn:Hx.
  - apply Z.eqb_eq in Hx.
    apply conn_trans with (label F x); [apply Hup, IH|].
    rewrite Hx.
    apply conn_trans with (destination e); [apply conn_sym, Hup, IH|].
    apply conn_trans with (source e); [|apply Hup, IH].
    apply conn_sym, conn_edge. left. reflexivity.
  - apply Hup, IH.
Qed.

Lemma label_edge F e : In e F -> label F (source e) = label F (destination e).
Proof.
  induction F as [|a F IH]; intros He; [destruct He|].
  rewrite !label_cons. destruct He as [->|He].
  - rewrite Z.eqb_refl. destruct (_ =? _); reflexivity.
  - rewrite (IH He). reflexivity.
Qed.

Lemma label_conn F u v : conn F u v <-> label F u = label F v.
Proof.
  split.
  - intros H.
    induction H as [u v (e & He & <- & <-)|u|u v _ IH|u v w _ IH1 _ IH2].
    + apply label_edge, He.
    + reflexivity.
    + symmetry. exact IH.
    + congruence.
  - intros H. apply conn_trans with (label F u); [apply label_conn_self|].
    rewrite H. apply conn_sym, label_conn_self.
Qed.

Lemma connb_conn F u v : connb F u v = true <-> conn F u v.
Proof. unfold connb. rewrite Z.eqb_eq. symmetry. apply label_conn. Qed.

Lemma connb_false F u v : connb F u v = false <-> ~ conn F u v.
Proof.
  rewrite <- connb_conn. destruct (connb F u v); split; congruence.
Qed.

Lemma label_range V F x :
  Forall (in_range V) F -> 0 <= x < V -> 0 <= label F x < V.
Proof.
  intros HF. revert x. induction HF as [|e F He _ IH]; intros x Hx; [exact Hx|].
  rewrite label_cons. destruct (_ =? _); [apply IH, He|apply IH, Hx].
Qed.

(** * Counting components *)

Lemma Zseq_In V i : In i (Zseq V) <-> 0 <= i < V.
Proof.
  unfold Zseq. rewrite in_map_iff. split.
  - intros (k & <- & Hk). apply in_seq in Hk. lia.
  - intros Hi. exists (Z.to_nat i). split; [lia|]. apply in_seq. lia.
Qed.

Lemma Zseq_NoDup V : List.NoDup (Zseq V).
Proof.
  unfold Zseq. apply NoDup_map_NoDup_ForallPairs; [|apply seq_NoDup].
  intros a b _ _ H. lia.
Qed.

Lemma Zseq_length V : length (Zseq V) = Z.to_nat V.
Proof. unfold Zseq. rewrite length_map, length_seq. reflexivity. Qed.

Lemma roots_In V F i : In i (roots V F) <-> 0 <= i < V /\ label F i = i.
Proof.
  unfold roots. rewrite filter_In, Zseq_In, Z.eqb_eq. reflexivity.
Qed.

Lemma roots_NoDup V F : List.NoDup (roots V F).
Proof. apply List.NoDup_filter, Zseq_NoDup. Qed.

(** Dropping one element that satisfies the predicate. *)
Lemma filter_remove_one (P Q : Z -> bool) (a : Z) (l : list Z) :
  List.NoDup l -> In a l -> P a = true ->
  (forall i, In i l -> Q i = P i && negb (i =? a)) ->
  S (length (List.filter Q l)) = length (List.filter P l).
Proof.
  induction 1 as [|x l Hx Hnd IH]; intros Ha HP HQ; [destruct Ha|].
  assert (Hfresh : ~ In a l ->
            List.filter Q l = List.filter P l).
  { intros Hn. apply filter_ext_in. intros i Hi.
    rewrite HQ by (right; exact Hi).
    destruct (Z.eqb_spec i a) as [->|_]; [contradiction|].
    apply andb_true_r. }
  simpl. rewrite (HQ x) by (left; reflexivity).
  destruct Ha as [->|Ha].
  - rewrite HP, Z.eqb_refl. simpl. rewrite (Hfresh Hx). reflexivity.
  - destruct (Z.eqb_spec x a) as [->|_]; [contradiction|].
    rewrite andb_true_r.
    assert (IH' := IH Ha HP (fun i Hi => HQ i (or_intror Hi))).
    destruct (P x); simpl; rewrite <- IH'; reflexivity.
Qed.

Lemma label_cons_conn e F :
  conn F (source e) (destination e) -> forall x, label (e :: F) x = label F x.
Proof.
  intros H x. apply label_conn in H. rewrite label_cons.
  destruct (Z.eqb_spec (label F x) (label F (destination e))); congruence.
Qed.

Lemma roots_cons_conn V e F :
  conn F (source e) (destination e) -> roots V (e :: F) = roots V F.
Proof.
  intros H. unfold roots. apply filter_ext. intros i.
  rewrite (label_cons_conn e F H). reflexivity.
Qed.

Lemma roots_cons_bridge V e F :
  in_range V e -> Forall (in_range V) F ->
  ~ conn F (source e) (destination e) ->
  S (length (roots V (e :: F))) = length (roots V F).
Proof.
  intros [Hs Hd] HF Hn. unfold roots.
  apply filter_remove_one with (a := label F (destination e)).
  - apply Zseq_NoDup.
  - apply Zseq_In, label_range; assumption.
  - apply Z.eqb_eq, label_idem.
  - intros i _. rewrite label_cons.
    assert (Hsd : label F (source e) <> label F (destination e)).
    { intros E. apply Hn, label_conn, E. }
    destruct (Z.eqb_spec (label F i) (label F (destination e))) as [E|E].
    + destruct (Z.eqb_spec (label F (source e)) i) as [E1|E1].
      * exfalso. apply Hsd. rewrite <- E, <- E1. symmetry. apply label_idem.
      * destruct (Z.eqb_spec (label F i) i) as [E2|E2]; [|reflexivity].
        destruct (Z.eqb_spec i (label F (destination e))); [reflexivity|].
        congruence.
    + destruct (Z.eqb_spec (label F i) i) as [E2|E2]; [|reflexivity].
      destruct (Z.eqb_spec i (label F (destination e))) as [E3|E3];
        [|reflexivity].
      exfalso. apply E. rewrite E3 at 1. apply label_idem.
Qed.

Lemma roots_nil V : length (roots V []) = Z.to_nat V.
Proof.
  unfold roots. rewrite <- Zseq_length. f_equal.
  apply forallb_filter_id, forallb_forall. intros i _. apply Z.eqb_refl.
Qed.

(** Every edge removes at most one component. *)
Lemma roots_lower_bound V F :
  Forall (in_range V) F ->
  (Z.to_nat V <= length (roots V F) + length F)%nat.
Proof.
  induction 1 as [|e F He HF IH]; [rewrite roots_nil; simpl; lia|].
  destruct (connb F (source e) (destination e)) eqn:Hc.
  - apply connb_conn in Hc. rewrite (roots_cons_conn V e F Hc). simpl. lia.
  - apply connb_false in Hc.
    pose proof (roots_cons_bridge V e F He HF Hc). simpl. lia.
Qed.

(** In a forest every edge removes exactly one. *)
Lemma acyclic_count V F :
  Forall (in_range V) F ->
  acyclic F <-> (length (roots V F) + length F)%nat = Z.to_nat V.
Proof.
  induction 1 as [|e F He HF IH]; simpl.
  - rewrite roots_nil. split; [lia|trivial].
  - pose proof (roots_lower_bound V F HF) as Hlow. split.
    + intros [Hn Hac]. apply IH in Hac.
      pose proof (roots_cons_bridge V e F He HF Hn). lia.
    + intros Hcnt. destruct (connb F (source e) (destination e)) eqn:Hc.
      * apply connb_conn in Hc. rewrite (roots_cons_conn V e F Hc) in Hcnt.
        lia.
      * apply connb_false in Hc. split; [exact Hc|]. apply IH.
        pose proof (roots_cons_bridge V e F He HF Hc). lia.
Qed.

(** A coarser partition has no more components. *)
Lemma roots_mono V A B :
  Forall (in_range V) A ->
  (forall u v, conn A u v -> conn B u v) ->
  (length (roots V B) <= length (roots V A))%nat.
Proof.
  intros HA Hsub.
  rewrite <- (length_map (label A) (roots V B)).
  apply NoDup_incl_length.
  - apply NoDup_map_NoDup_ForallPairs; [|apply roots_NoDup].
    intros r r' Hr Hr' E. apply roots_In in Hr, Hr'.
    destruct Hr as [_ Hr], Hr' as [_ Hr'].
    apply label_conn, Hsub, label_conn in E. congruence.
  - intros x Hx. apply in_map_iff in Hx. destruct Hx as (r & <- & Hr).
    apply roots_In in Hr. apply roots_In. split.
    + apply label_range; tauto.
    + apply label_idem.
Qed.

(** The rank bound: a forest whose edges are all connected in [B] has no
    more edges than [B]. *)
Lemma forest_size_le V A B :
  Forall (in_range V) A -> Forall (in_range V) B ->
  acyclic A ->
  (forall e, In e A -> conn B (source e) (destination e)) ->
  (length A <= length B)%nat.
Proof.
  intros HA HB Hac Hsub.
  apply (acyclic_count V A HA) in Hac.
  pose proof (roots_lower_bound V B HB).
  pose proof (roots_mono V A B HA (conn_sub A B Hsub)).
  lia.
Qed.

(** The two formulations of "forest" agree. *)
Lemma forest_acyclic F : forest F -> acyclic F.
Proof.
  induction F as [|e F IH]; intros HF; simpl; [trivial|]. split.
  - apply (HF [] e F). reflexivity.
  - apply IH. intros F1 a F2 -> Hc.
    apply (HF (e :: F1) a F2); [reflexivity|].
    revert Hc. apply conn_incl. intros x Hx. right. exact Hx.
Qed.

Lemma acyclic_forest V F : Forall (in_range V) F -> acyclic F -> forest F.
Proof.
  intros HF Hac F1 e F2 -> Hc.
  apply (acyclic_count V _ HF) in Hac.
  assert (HF' : Forall (in_range V) (F1 ++ F2)).
  { rewrite List.Forall_app in *. destruct HF as [H1 H2]. inversion H2; auto. }
  pose proof (roots_lower_bound V _ HF') as Hlow.
  assert (Hle : (length (roots V (F1 ++ F2))
                 <= length (roots V (F1 ++ e :: F2)))%nat).
  { apply roots_mono; [exact HF|]. apply conn_sub.
    intros a Ha. apply in_app_or in Ha. destruct Ha as [Ha|[<-|Ha]].
    - apply conn_edge, in_or_app. auto.
    - exact Hc.
    - apply conn_edge, in_or_app. auto. }
  rewrite !length_app in *. simpl in *. lia.
Qed.

(** * The sort *)

Lemma sort_insert_perm cmp x l : Permutation (x :: l) (sort_insert cmp x l).
Proof.
  induction l as [|y l IH]; simpl; [apply Permutation_refl|].
  destruct (cmp x y <=? 0); [apply Permutation_refl|].
  eapply perm_trans; [apply perm_swap|]. apply perm_skip, IH.
Qed.

Lemma sort_perm cmp l : Permutation l (sort cmp l).
Proof.
  induction l as [|x l IH]; simpl; [apply perm_nil|].
  eapply perm_trans; [apply perm_skip, IH|apply sort_insert_perm].
Qed.

Lemma sort_insert_sorted x l :
  StronglySorted le_weight l ->
  StronglySorted le_weight (sort_insert by_weight x l).
Proof.
  induction 1 as [|y l Hl IH Hy]; simpl.
  - repeat constructor.
  - unfold by_weight at 1. destruct (Z.leb_spec (weight x - weight y) 0).
    + constructor; [constructor; assumption|].
      constructor; [unfold le_weight; lia|].
      eapply List.Forall_impl; [|exact Hy]. unfold le_weight. intros a Ha. lia.
    + constructor; [exact IH|].
      eapply Permutation_Forall; [apply sort_insert_perm|].
      constructor; [unfold le_weight; lia|exact Hy].
Qed.

Lemma sort_sorted l : StronglySorted le_weight (sort by_weight l).
Proof.
  induction l as [|x l IH]; simpl; [constructor|].
  apply sort_insert_sorted, IH.
Qed.

Lemma sorted_app_remove (l1 : list Edge) x l2 :
  StronglySorted le_weight (l1 ++ x :: l2) ->
  StronglySorted le_weight (l1 ++ l2).
Proof.
  induction l1 as [|a l1 IH]; simpl; intros H;
    apply StronglySorted_inv in H; destruct H as [H1 H2]; [exact H1|].
  constructor; [apply IH, H1|].
  rewrite List.Forall_app in *. destruct H2 as [Ha Hb].
  split; [exact Ha|]. inversion Hb; assumption.
Qed.

Lemma sorted_app_l (l1 l2 : list Edge) :
  StronglySorted le_weight (l1 ++ l2) -> StronglySorted le_weight l1.
Proof.
  induction l1 as [|a l1 IH]; simpl; intros H; [constructor|].
  apply StronglySorted_inv in H. destruct H as [H1 H2].
  constructor; [apply IH, H1|]. rewrite List.Forall_app in H2. tauto.
Qed.

Lemma sorted_app_le (l1 l2 : list Edge) a b :
  StronglySorted le_weight (l1 ++ l2) ->
  In a l1 -> In b l2 -> weight a <= weight b.
Proof.
  induction l1 as [|x l1 IH]; simpl; intros H Ha Hb; [destruct Ha|].
  apply StronglySorted_inv in H. destruct H as [H1 H2].
  destruct Ha as [->|Ha]; [|apply IH; assumption].
  rewrite List.Forall_forall in H2. apply H2, in_or_app. auto.
Qed.

(** * Weights of two lists compared through their counts *)

Lemma upto_In t l e : In e (upto t l) <-> In e l /\ weight e <= t.
Proof. unfold upto. rewrite filter_In, Z.leb_le. reflexivity. Qed.

Lemma upto_all t l :
  (forall e, In e l -> weight e <= t) -> upto t l = l.
Proof.
  intros H. apply forallb_filter_id, forallb_forall.
  intros e He. apply Z.leb_le, H, He.
Qed.

Lemma count_le_zero t l :
  (forall e, In e l -> t < weight e) -> count_le t l = 0%nat.
Proof.
  unfold count_le, upto. induction l as [|a l IH]; intros H; [reflexivity|].
  simpl. destruct (Z.leb_spec (weight a) t) as [Hle|_].
  - specialize (H a (or_introl eq_refl)). lia.
  - apply IH. intros e He. apply H. right. exact He.
Qed.

Lemma count_le_cons t a l :
  count_le t (a :: l) =
  ((if (weight a <=? t)%Z then 1 else 0) + count_le t l)%nat.
Proof.
  unfold count_le, upto. simpl. destruct (weight a <=? t); reflexivity.
Qed.

Lemma count_le_perm t l l' :
  Permutation l l' -> count_le t l = count_le t l'.
Proof.
  induction 1; rewrite ?count_le_cons; lia.
Qed.

Lemma sum_weights_perm l l' :
  Permutation l l' -> sum_weights l = sum_weights l'.
Proof. induction 1; simpl; lia. Qed.

(** If, below every threshold, [K] has at least as many edges as [F], and
    both have the same length, then [K] weighs no more than [F]. *)
Lemma dominated_sum K :
  forall F,
    StronglySorted le_weight K -> StronglySorted le_weight F ->
    length K = length F ->
    (forall t, (count_le t F <= count_le t K)%nat) ->
    sum_weights K <= sum_weights F.
Proof.
  induction K as [|k K IH]; intros [|f F] HK HF Hlen Hcnt;
    try discriminate Hlen; [simpl; lia|].
  apply StronglySorted_inv in HK, HF.
  destruct HK as [HK Hk], HF as [HF Hf].
  rewrite List.Forall_forall in Hk, Hf. unfold le_weight in Hk, Hf.
  assert (Hkf : weight k <= weight f).
  { destruct (Z.le_gt_cases (weight k) (weight f)) as [|Hgt]; [assumption|].
    specialize (Hcnt (weight f)). rewrite !count_le_cons in Hcnt.
    rewrite (count_le_zero (weight f) K) in Hcnt
      by (intros e He; specialize (Hk e He); lia).
    destruct (Z.leb_spec (weight f) (weight f)); [|lia].
    destruct (Z.leb_spec (weight k) (weight f)); lia. }
  assert (sum_weights K <= sum_weights F); [|simpl; lia].
  apply IH; try assumption; [simpl in Hlen; lia|].
  intros t. specialize (Hcnt t). rewrite !count_le_cons in Hcnt.
  destruct (Z.leb_spec (weight f) t) as [Hft|Hft].
  - destruct (Z.leb_spec (weight k) t); lia.
  - rewrite (count_le_zero t F); [lia|].
    intros e He. specialize (Hf e He). lia.
Qed.

(** * Kruskal's selection yields a minimum spanning forest *)

Lemma acyclic_filter p F : acyclic F -> acyclic (List.filter p F).
Proof.
  induction F as [|e F IH]; simpl; [trivial|]. intros [Hn Hac].
  destruct (p e); simpl; [|apply IH, Hac]. split; [|apply IH, Hac].
  intros Hc. apply Hn. revert Hc. apply conn_incl, incl_filter.
Qed.

(** Being a forest depends only on the size and on what is connected. *)
Lemma acyclic_same V A B :
  Forall (in_range V) A -> Forall (in_range V) B ->
  length A = length B ->
  (forall u v, conn A u v <-> conn B u v) ->
  acyclic A -> acyclic B.
Proof.
  intros HA HB Hlen Hc Hac.
  apply (acyclic_count V A HA) in Hac. apply (acyclic_count V B HB).
  pose proof (roots_mono V A B HA (fun u v => proj1 (Hc u v))).
  pose proof (roots_mono V B A HB (fun u v => proj2 (Hc u v))).
  lia.
Qed.

Lemma conn_rev F u v : conn (rev F) u v <-> conn F u v.
Proof.
  split; apply conn_incl; intros e He; [apply in_rev|apply in_rev in He];
    exact He.
Qed.

Lemma acyclic_rev V F :
  Forall (in_range V) F -> acyclic (rev F) -> acyclic F.
Proof.
  intros HF. apply (acyclic_same V).
  - apply Forall_rev, HF.
  - exact HF.
  - apply length_rev.
  - intros u v. apply conn_rev.
Qed.

(** A forest with [V - 1] edges connects all of [0 .. V-1]. *)
Lemma full_tree_connects V A u v :
  Forall (in_range V) A -> acyclic A ->
  Z.of_nat (length A) = V - 1 ->
  0 <= u < V -> 0 <= v < V -> conn A u v.
Proof.
  intros HA Hac Hlen Hu Hv. apply (acyclic_count V A HA) in Hac.
  assert (H1 : length (roots V A) = 1%nat) by lia.
  assert (Hin : forall x, 0 <= x < V -> In (label A x) (roots V A)).
  { intros x Hx. apply roots_In. split;
      [apply label_range; assumption|apply label_idem]. }
  pose proof (Hin u Hu) as Iu. pose proof (Hin v Hv) as Iv.
  destruct (roots V A) as [|r [|? ?]]; try discriminate H1.
  apply label_conn. destruct Iu as [<-|[]], Iv as [<-|[]]. reflexivity.
Qed.

Lemma greedy_extends V edges :
  forall acc, exists X, greedy V edges acc = acc ++ X /\ incl X edges.
Proof.
  induction edges as [|e rest IH]; intros acc; simpl.
  - exists []. split; [symmetry; apply app_nil_r|apply incl_refl].
  - destruct (Z.of_nat (length acc) =? V - 1).
    { exists []. split; [symmetry; apply app_nil_r|apply incl_nil_l]. }
    destruct (connb acc (source e) (destination e)).
    + destruct (IH acc) as (X & -> & HX). exists X.
      split; [reflexivity|apply incl_tl, HX].
    + destruct (IH (acc ++ [e])) as (X & -> & HX). exists (e :: X).
      split; [rewrite <- app_assoc; reflexivity|].
      apply incl_cons; [left; reflexivity|apply incl_tl, HX].
Qed.

Lemma greedy_sorted V edges :
  forall acc,
    StronglySorted le_weight (acc ++ edges) ->
    StronglySorted le_weight (greedy V edges acc).
Proof.
  induction edges as [|e rest IH]; intros acc H; simpl.
  - rewrite app_nil_r in H. exact H.
  - destruct (Z.of_nat (length acc) =? V - 1); [eapply sorted_app_l, H|].
    destruct (connb acc (source e) (destination e)).
    + apply IH. eapply sorted_app_remove, H.
    + apply IH. rewrite <- app_assoc. exact H.
Qed.

Lemma greedy_acyclic V edges :
  forall acc, acyclic (rev acc) -> acyclic (rev (greedy V edges acc)).
Proof.
  induction edges as [|e rest IH]; intros acc H; simpl; [exact H|].
  destruct (Z.of_nat (length acc) =? V - 1); [exact H|].
  destruct (connb acc (source e) (destination e)) eqn:Hc; [apply IH, H|].
  apply IH. rewrite rev_app_distr. simpl. split; [|exact H].
  apply connb_false in Hc. rewrite conn_rev. exact Hc.
Qed.

(** Every visited or skipped edge is connected by the accepted edges that
    are no heavier than it. *)
Lemma greedy_spans V edges :
  forall acc,
    Forall (in_range V) (acc ++ edges) ->
    StronglySorted le_weight (acc ++ edges) ->
    acyclic (rev acc) ->
    forall e t, In e edges -> weight e <= t ->
      conn (upto t (greedy V edges acc)) (source e) (destination e).
Proof.
  induction edges as [|e0 rest IH]; intros acc Hr Hs Hac e t He Ht;
    [destruct He|].
  assert (Hacc : forall a, In a acc -> weight a <= t).
  { intros a Ha. pose proof (sorted_app_le _ _ a e Hs Ha He). lia. }
  simpl. destruct (Z.eqb_spec (Z.of_nat (length acc)) (V - 1)) as [Hfull|_].
  { rewrite (upto_all t acc Hacc).
    apply List.Forall_app in Hr. destruct Hr as [Hr1 Hr2].
    rewrite List.Forall_forall in Hr2. destruct (Hr2 e He) as [Hu Hv].
    apply conn_rev.
    apply (full_tree_connects V); try assumption.
    - apply Forall_rev, Hr1.
    - rewrite length_rev. exact Hfull. }
  destruct (connb acc (source e0) (destination e0)) eqn:Hc.
  - destruct He as [<-|He].
    + apply connb_conn in Hc. revert Hc. apply conn_incl.
      intros a Ha. apply upto_In. split; [|apply Hacc, Ha].
      destruct (greedy_extends V rest acc) as (X & -> & _).
      apply in_or_app. auto.
    + apply IH; try assumption.
      * rewrite List.Forall_app in *. destruct Hr as [H1 H2].
        inversion H2; auto.
      * eapply sorted_app_remove, Hs.
  - assert (Hr' : Forall (in_range V) ((acc ++ [e0]) ++ rest))
      by (rewrite <- app_assoc; exact Hr).
    assert (Hs' : StronglySorted le_weight ((acc ++ [e0]) ++ rest))
      by (rewrite <- app_assoc; exact Hs).
    assert (Hac' : acyclic (rev (acc ++ [e0]))).
    { rewrite rev_app_distr. simpl. split; [|exact Hac].
      apply connb_false in Hc. rewrite conn_rev. exact Hc. }
    destruct He as [<-|He].
    + apply conn_edge, upto_In. split; [|exact Ht].
      destruct (greedy_extends V rest (acc ++ [e0])) as (X & -> & _).
      rewrite <- app_assoc. apply in_or_app. right. left. reflexivity.
    + apply IH; assumption.
Qed.

Lemma Forall_incl (P : Edge -> Prop) l l' :
  incl l l' -> Forall P l' -> Forall P l.
Proof.
  intros Hi H. rewrite List.Forall_forall in *. intros x Hx. apply H, Hi, Hx.
Qed.

Theorem greedy_minimum V edges :
  Forall (in_range V) edges ->
  StronglySorted le_weight edges ->
  spanning_forest edges (greedy V edges []) /\
  (forall F, spanning_forest edges F ->
             sum_weights (greedy V edges []) <= sum_weights F).
Proof.
  intros Hr Hs. set (K := greedy V edges []).
  destruct (greedy_extends V edges []) as (X & HK & HX).
  simpl in HK. fold K in HK.
  assert (HKin : incl K edges) by (rewrite HK; exact HX).
  assert (HKr : Forall (in_range V) K) by (eapply Forall_incl; eassumption).
  assert (HKac : acyclic K).
  { apply (acyclic_rev V); [exact HKr|]. apply greedy_acyclic. exact I. }
  assert (Hspan : forall e t, In e edges -> weight e <= t ->
                    conn (upto t K) (source e) (destination e)).
  { apply (greedy_spans V edges []); simpl; auto. }
  assert (HspanK : forall e, In e edges -> conn K (source e) (destination e)).
  { intros e He. generalize (Hspan e (weight e) He (Z.le_refl _)).
    apply conn_incl. apply incl_filter. }
  split.
  - split; [exact HKin|]. split; [apply (acyclic_forest V); assumption|].
    apply conn_sub, HspanK.
  - intros F (HFin & HFf & HFs).
    assert (HFr : Forall (in_range V) F) by (eapply Forall_incl; eassumption).
    assert (HFac : acyclic F) by (apply forest_acyclic, HFf).
    rewrite (sum_weights_perm F _ (sort_perm by_weight F)).
    apply dominated_sum.
    + apply (greedy_sorted V edges []). exact Hs.
    + apply sort_sorted.
    + rewrite <- (Permutation_length (sort_perm by_weight F)).
      apply Nat.le_antisymm.
      * apply (forest_size_le V); try assumption.
        intros e He. apply HFs, conn_edge, HKin, He.
      * apply (forest_size_le V); try assumption.
        intros e He. apply HspanK, HFin, He.
    + intros t. rewrite <- (count_le_perm t _ _ (sort_perm by_weight F)).
      unfold count_le. apply (forest_size_le V).
      * eapply Forall_incl; [apply incl_filter|exact HFr].
      * eapply Forall_incl; [apply incl_filter|exact HKr].
      * apply acyclic_filter, HFac.
      * intros e He. apply upto_In in He. destruct He as [He Ht].
        apply Hspan; [apply HFin, He|exact Ht].
Qed.

(** * Arrays *)

Lemma get_set_eq a k v : get (set a k v) k = v.
Proof. unfold get, set. rewrite lookup_insert_eq. reflexivity. Qed.

Lemma get_set_ne a k k' v : k <> k' -> get (set a k v) k' = get a k'.
Proof.
  intros H. unfold get, set. rewrite lookup_insert_ne by exact H.
  reflexivity.
Qed.

Lemma get_lookup a k v : a !! k = Some v -> get a k = v.
Proof. intros H. unfold get. rewrite H. reflexivity. Qed.

Lemma array_init_nat_num n f i :
  array_init_nat n f !! Num i =
  if (0 <=? i) && (i <? Z.of_nat n) then Some (f i) else None.
Proof.
  induction n as [|m IH]; simpl array_init_nat.
  - rewrite lookup_empty. destruct (Z.leb_spec 0 i); [|reflexivity].
    destruct (Z.ltb_spec i (Z.of_nat 0)); [lia|reflexivity].
  - destruct (Z.eq_dec i (Z.of_nat m)) as [->|Hne].
    + rewrite lookup_insert_eq.
      destruct (Z.leb_spec 0 (Z.of_nat m)); [|lia].
      destruct (Z.ltb_spec (Z.of_nat m) (Z.of_nat (S m))); [reflexivity|lia].
    + rewrite lookup_insert_ne by congruence. rewrite IH.
      destruct (0 <=? i); [|reflexivity]. simpl.
      destruct (Z.ltb_spec i (Z.of_nat m)), (Z.ltb_spec i (Z.of_nat (S m)));
        try reflexivity; lia.
Qed.

Lemma array_init_nat_other n f k :
  (forall i, k <> Num i) -> array_init_nat n f !! k = None.
Proof.
  intros Hk. induction n as [|m IH]; simpl; [apply lookup_empty|].
  rewrite lookup_insert_ne; [exact IH|]. intros E. exact (Hk _ (eq_sym E)).
Qed.

Lemma array_init_in n f i :
  0 <= i < n -> array_init n f !! Num i = Some (f i).
Proof.
  intros Hi. unfold array_init. rewrite array_init_nat_num.
  destruct (Z.leb_spec 0 i); [|lia].
  destruct (Z.ltb_spec i (Z.of_nat (Z.to_nat n))); [reflexivity|lia].
Qed.

Lemma array_init_out n f i :
  ~ 0 <= i < n -> array_init n f !! Num i = None.
Proof.
  intros Hi. unfold array_init. rewrite array_init_nat_num.
  destruct (Z.leb_spec 0 i); [|reflexivity].
  destruct (Z.ltb_spec i (Z.of_nat (Z.to_nat n))); [lia|reflexivity].
Qed.

Lemma strict_eq_true a k : k <> NaN -> strict_eq a k = true <-> a = k.
Proof.
  intros Hk. destruct a, k; simpl; try (split; congruence).
  rewrite Z.eqb_eq. split; congruence.
Qed.

Lemma strict_eq_false a k : k <> NaN -> strict_eq a k = false <-> a <> k.
Proof.
  intros Hk. rewrite <- (strict_eq_true a k Hk).
  destruct (strict_eq a k); split; congruence.
Qed.

(** * Roots *)

Lemma repr_is_root s k r : repr s k r -> get (parent s) r = r.
Proof. induction 1; assumption. Qed.

Lemma repr_det s k r : repr s k r -> forall r', repr s k r' -> r = r'.
Proof.
  induction 1 as [k Hk|k r Hk _ IH]; intros r' H'; inversion H'; subst;
    try contradiction; [reflexivity|]. apply IH. assumption.
Qed.

Lemma repr_of_root s r k : get (parent s) r = r -> repr s r k -> k = r.
Proof.
  intros Hr H. symmetry. eapply repr_det; [apply repr_root, Hr|exact H].
Qed.

Lemma repr_not_nan s h B k r :
  ranked s h B -> k <> NaN -> repr s k r -> r <> NaN.
Proof.
  intros [Hp _] Hk H. induction H as [k _|k r _ _ IH]; [exact Hk|].
  apply IH. apply (Hp k).
Qed.

Lemma repr_height s h B k r :
  ranked s h B -> repr s k r -> k = r \/ (h k < h r)%nat.
Proof.
  intros Hrk H. pose proof Hrk as [Hp _].
  induction H as [k _|k r Hne _ IH]; [left; reflexivity|]. right.
  destruct (Hp k) as [Hn [E|Hlt]]; [contradiction|].
  destruct IH as [<-|Hlt']; lia.
Qed.

Lemma repr_total s h B :
  ranked s h B -> forall m k, (B - h k < m)%nat -> exists r, repr s k r.
Proof.
  intros [Hp Hb]. induction m as [|m IH]; intros k Hm; [lia|].
  destruct (decide (get (parent s) k = k)) as [E|Hne].
  - exists k. apply repr_root, E.
  - destruct (Hp k) as [_ [E|Hlt]]; [contradiction|].
    specialize (Hb (get (parent s) k)).
    destruct (IH (get (parent s) k)) as [r Hr]; [lia|].
    exists r. apply repr_step; assumption.
Qed.

Lemma repr_exists s h B k : ranked s h B -> exists r, repr s k r.
Proof. intros H. apply (repr_total s h B H (S B) k). lia. Qed.

(** * Path compression *)

Lemma compression_refl s : compression s s.
Proof. split; [reflexivity|]. intros k. left. reflexivity. Qed.

Lemma compression_root s s' r :
  compression s s' -> get (parent s) r = r -> get (parent s') r = r.
Proof.
  intros [_ Hc] Hr. destruct (Hc r) as [E|(r' & _ & _ & Hne)];
    [|contradiction].
  unfold get in *. rewrite E. exact Hr.
Qed.

Lemma compression_repr s s' :
  compression s s' -> forall k r, repr s k r -> repr s' k r.
Proof.
  intros Hc k r H. induction H as [k Hk|k r Hne H IH].
  - apply repr_root. eapply compression_root; eassumption.
  - destruct Hc as [Hrk Hc']. destruct (Hc' k) as [E|(r' & E & Hr' & _)].
    + assert (Eg : get (parent s') k = get (parent s) k)
        by (unfold get; rewrite E; reflexivity).
      apply repr_step; rewrite Eg; assumption.
    + assert (r' = r).
      { eapply repr_det; [exact Hr'|]. apply repr_step; assumption. }
      subst r'. apply get_lookup in E.
      assert (Hroot : get (parent s) r = r) by (eapply repr_is_root, H).
      apply repr_step; rewrite E.
      * intros ->. contradiction.
      * apply repr_root. eapply compression_root; [split|]; eassumption.
Qed.

Lemma compression_ranked s s' h B :
  compression s s' -> ranked s h B -> ranked s' h B.
Proof.
  intros [Hrk Hc] Hr. pose proof Hr as [Hp Hb]. split; [|exact Hb].
  intros k. destruct (Hc k) as [E|(r & E & Hrepr & Hne)].
  - unfold get. rewrite E. apply (Hp k).
  - rewrite (get_lookup _ _ _ E). split.
    + inversion Hrepr; subst; [contradiction|].
      eapply repr_not_nan; [exact Hr| |eassumption]. apply (Hp k).
    + destruct (repr_height s h B k r Hr Hrepr) as [<-|Hlt];
        [left; reflexivity|right; exact Hlt].
Qed.

Lemma compression_repr_inv s s' h B :
  ranked s h B -> compression s s' ->
  forall k r, repr s' k r -> repr s k r.
Proof.
  intros Hr Hc k r H. destruct (repr_exists s h B k Hr) as [r0 H0].
  pose proof (compression_repr s s' Hc k r0 H0) as H1.
  rewrite (repr_det s' k r H r0 H1). exact H0.
Qed.

Lemma compression_trans s s1 s2 h B :
  ranked s h B -> compression s s1 -> compression s1 s2 ->
  compression s s2.
Proof.
  intros Hr H1 H2. pose proof H1 as [Hrk1 Hc1]. pose proof H2 as [Hrk2 Hc2].
  split; [congruence|]. intros k.
  destruct (Hc2 k) as [E|(r & E & Hrepr & Hne)].
  - rewrite E. apply Hc1.
  - right. exists r. split; [exact E|].
    split; [eapply compression_repr_inv; eassumption|].
    intros Hroot. apply Hne. eapply compression_root; eassumption.
Qed.

(** [find] returns the root and only compresses paths. *)
Lemma find_spec s h B :
  ranked s h B ->
  forall fuel k,
    k <> NaN -> (B - h k < fuel)%nat ->
    exists s' r,
      find fuel s k = Some (s', r) /\ repr s k r /\ compression s s'.
Proof.
  intros Hr. pose proof Hr as [Hp Hb].
  induction fuel as [|fuel IH]; intros k Hk Hfuel; [lia|].
  simpl. destruct (strict_eq (get (parent s) k) k) eqn:Heq.
  - apply strict_eq_true in Heq; [|exact Hk].
    exists s, k. split; [reflexivity|].
    split; [apply repr_root, Heq|apply compression_refl].
  - apply strict_eq_false in Heq; [|exact Hk].
    destruct (Hp k) as [Hn [E|Hlt]]; [contradiction|].
    specialize (Hb (get (parent s) k)).
    destruct (IH (get (parent s) k) Hn) as (s1 & r & -> & Hrepr & Hc1);
      [lia|].
    exists (set_parent s1 k r), r. simpl. rewrite get_set_eq.
    split; [reflexivity|].
    assert (Hk_r : repr s k r) by (apply repr_step; assumption).
    split; [exact Hk_r|].
    destruct Hc1 as [Hrk Hc1]. split; [exact Hrk|].
    intros k'. simpl. unfold set. destruct (decide (k = k')) as [<-|Hne].
    + right. exists r. rewrite lookup_insert_eq. auto.
    + rewrite lookup_insert_ne by exact Hne. apply Hc1.
Qed.

(** * Linking two roots *)

Lemma ranked_weaken s h B : ranked s h B -> ranked s h (S B).
Proof.
  intros [Hp Hb]. split; [exact Hp|]. intros k. specialize (Hb k). lia.
Qed.

Lemma link_ranked s h B c p :
  ranked s h B ->
  get (parent s) c = c -> get (parent s) p = p -> c <> p -> p <> NaN ->
  exists h', ranked (set_parent s c p) h' (S B).
Proof.
  intros [Hp Hb] Hc Hpr Hne Hnan.
  exists (fun k => if decide (k = p) then Nat.max (h p) (S (h c)) else h k).
  split.
  - intros k. simpl. destruct (decide (c = k)) as [<-|Hck].
    + rewrite get_set_eq. split; [exact Hnan|]. right.
      destruct (decide (c = p)); [contradiction|].
      destruct (decide (p = p)); [lia|contradiction].
    + rewrite get_set_ne by exact Hck.
      destruct (Hp k) as [Hn [E|Hlt]]; (split; [exact Hn|]);
        [left; exact E|]. right.
      destruct (decide (k = p)) as [->|_]; [rewrite Hpr in Hlt; lia|].
      destruct (decide (get (parent s) k = p)) as [E|_]; [|exact Hlt].
      rewrite E in Hlt. lia.
  - intros k. pose proof (Hb k). pose proof (Hb p). pose proof (Hb c).
    destruct (decide (k = p)); lia.
Qed.

Lemma link_repr s c p :
  get (parent s) c = c -> get (parent s) p = p -> c <> p ->
  forall k r, repr s k r -> repr (set_parent s c p) k (redirect c p r).
Proof.
  intros Hc Hp Hne k r H. unfold redirect.
  assert (Hp' : repr (set_parent s c p) p p).
  { apply repr_root. simpl. rewrite get_set_ne by exact Hne. exact Hp. }
  induction H as [k Hk|k r Hk H IH].
  - destruct (decide (k = c)) as [->|Hkc].
    + apply repr_step; simpl; rewrite get_set_eq; [congruence|exact Hp'].
    + apply repr_root. simpl. rewrite get_set_ne by congruence. exact Hk.
  - assert (Hkc : c <> k) by (intros <-; contradiction).
    apply repr_step; simpl; rewrite get_set_ne by exact Hkc; assumption.
Qed.

Lemma repr_set_rank s k v x r : repr s x r -> repr (set_rank s k v) x r.
Proof.
  induction 1; [apply repr_root|apply repr_step]; assumption.
Qed.

(** * The four ways through [union] *)

Lemma union_cases s h B fuel x y :
  ranked s h B -> x <> NaN -> y <> NaN -> (B < fuel)%nat ->
  exists s2 rx ry,
    compression s s2 /\ repr s x rx /\ repr s y ry /\
    ((rx = ry /\ union fuel s x y = Some (s2, false)) \/
     (rx <> ry /\
      ((js_gt (get (rank s) rx) (get (rank s) ry) = true /\
        union fuel s x y = Some (set_parent s2 ry rx, true)) \/
       (js_gt (get (rank s) rx) (get (rank s) ry) = false /\
        js_lt (get (rank s) rx) (get (rank s) ry) = true /\
        union fuel s x y = Some (set_parent s2 rx ry, true)) \/
       (js_gt (get (rank s) rx) (get (rank s) ry) = false /\
        js_lt (get (rank s) rx) (get (rank s) ry) = false /\
        union fuel s x y =
        Some (set_rank (set_parent s2 ry rx) rx
                       (js_incr (get (rank s) rx)), true))))).
Proof.
  intros Hr Hx Hy Hfuel.
  destruct (find_spec s h B Hr fuel x Hx) as (s1 & rx & Hf1 & Hrx & Hc1);
    [lia|].
  pose proof (compression_ranked s s1 h B Hc1 Hr) as Hr1.
  destruct (find_spec s1 h B Hr1 fuel y Hy) as (s2 & ry & Hf2 & Hry & Hc2);
    [lia|].
  pose proof (compression_trans s s1 s2 h B Hr Hc1 Hc2) as Hc.
  apply (compression_repr_inv s s1 h B Hr Hc1) in Hry.
  assert (Hrk : rank s2 = rank s) by apply Hc.
  assert (Hny : ry <> NaN) by exact (repr_not_nan s h B y ry Hr Hy Hry).
  exists s2, rx, ry. split; [exact Hc|]. split; [exact Hrx|].
  split; [exact Hry|].
  unfold union. rewrite Hf1, Hf2. simpl rank. rewrite Hrk.
  destruct (strict_eq rx ry) eqn:Heq; simpl.
  - left. apply strict_eq_true in Heq; auto.
  - right. apply strict_eq_false in Heq; [|exact Hny].
    split; [exact Heq|].
    destruct (js_gt (get (rank s) rx) (get (rank s) ry)); [auto|].
    destruct (js_lt (get (rank s) rx) (get (rank s) ry)); auto.
Qed.

(** [union] returns on every state whose parent relation is acyclic, and
    leaves it acyclic. *)
Lemma union_total s h B fuel x y :
  ranked s h B -> x <> NaN -> y <> NaN -> (B < fuel)%nat ->
  exists s' b h',
    union fuel s x y = Some (s', b) /\ ranked s' h' (S B).
Proof.
  intros Hr Hx Hy Hfuel.
  destruct (union_cases s h B fuel x y Hr Hx Hy Hfuel)
    as (s2 & rx & ry & Hc & Hrx & Hry & Hcases).
  pose proof (compression_ranked s s2 h B Hc Hr) as Hr2.
  assert (Hroot : forall k r, repr s k r -> get (parent s2) r = r).
  { intros k r H. eapply compression_root; [exact Hc|].
    eapply repr_is_root, H. }
  assert (Hnx : rx <> NaN) by exact (repr_not_nan s h B x rx Hr Hx Hrx).
  assert (Hny : ry <> NaN) by exact (repr_not_nan s h B y ry Hr Hy Hry).
  destruct Hcases as [[_ ->]|[Hne [[_ ->]|[(_ & _ & ->)|(_ & _ & ->)]]]].
  - exists s2, false, h. split; [reflexivity|].
    apply ranked_weaken, Hr2.
  - destruct (link_ranked s2 h B ry rx Hr2) as [h' Hh']; eauto.
  - destruct (link_ranked s2 h B rx ry Hr2) as [h' Hh']; eauto.
  - destruct (link_ranked s2 h B ry rx Hr2) as [h' Hh']; eauto.
Qed.

(** * Vertices in range *)

Lemma repr_in_bounds n s k r :
  in_bounds n s -> repr s k r ->
  forall i, k = Num i -> 0 <= i < n -> exists q, r = Num q /\ 0 <= q < n.
Proof.
  intros Hb H. induction H as [k _|k r _ _ IH]; intros i -> Hi; [eauto|].
  destruct (Hb i Hi) as [(p & Hp & Hpr) _].
  apply (IH p); [|exact Hpr]. apply get_lookup, Hp.
Qed.

Lemma compression_in_bounds n s s' :
  compression s s' -> in_bounds n s -> in_bounds n s'.
Proof.
  intros [Hrk Hc] Hb i Hi. destruct (Hb i Hi) as [(p & Hp & Hpr) Hr].
  rewrite Hrk. split; [|exact Hr].
  destruct (Hc (Num i)) as [E|(r & E & Hrepr & _)].
  - exists p. rewrite E. auto.
  - destruct (repr_in_bounds n s _ _ Hb Hrepr i eq_refl Hi) as (q & -> & Hq).
    eauto.
Qed.

Lemma in_bounds_set_parent n s c q :
  in_bounds n s -> 0 <= q < n -> in_bounds n (set_parent s c (Num q)).
Proof.
  intros Hb Hq i Hi. destruct (Hb i Hi) as [(p & Hp & Hpr) Hr].
  split; [|exact Hr]. simpl. unfold set.
  destruct (decide (c = Num i)) as [->|Hne].
  - exists q. rewrite lookup_insert_eq. auto.
  - exists p. rewrite lookup_insert_ne by exact Hne. auto.
Qed.

Lemma in_bounds_set_rank n s k r :
  in_bounds n s -> in_bounds n (set_rank s k (Num r)).
Proof.
  intros Hb i Hi. destruct (Hb i Hi) as [Hp (r0 & Hr)].
  split; [exact Hp|]. simpl. unfold set.
  destruct (decide (k = Num i)) as [->|Hne].
  - exists r. apply lookup_insert_eq.
  - exists r0. rewrite lookup_insert_ne by exact Hne. exact Hr.
Qed.

(** * Roots and components *)

Lemma clos_mono (R R' : Z -> Z -> Prop) :
  (forall u v, R u v -> clos_refl_sym_trans Z R' u v) ->
  forall u v, clos_refl_sym_trans Z R u v -> clos_refl_sym_trans Z R' u v.
Proof.
  intros H u v Huv. induction Huv as [u v Hs|u|u v _ IH|u v w _ IH1 _ IH2].
  - apply H, Hs.
  - apply rst_refl.
  - apply rst_sym, IH.
  - eapply rst_trans; eassumption.
Qed.

Lemma clos_add_pair x y R u v :
  clos_refl_sym_trans Z R u v ->
  clos_refl_sym_trans Z (add_pair x y R) u v.
Proof. apply clos_mono. intros a b H. apply rst_step. left. exact H. Qed.

Lemma clos_add_redundant x y R :
  clos_refl_sym_trans Z R x y ->
  forall u v, clos_refl_sym_trans Z (add_pair x y R) u v ->
              clos_refl_sym_trans Z R u v.
Proof.
  intros Hxy. apply clos_mono. intros a b [H|[-> ->]];
    [apply rst_step, H|exact Hxy].
Qed.

Lemma tracks_ext n s (R R' : Z -> Z -> Prop) :
  (forall u v, clos_refl_sym_trans Z R u v <-> clos_refl_sym_trans Z R' u v) ->
  tracks n s R -> tracks n s R'.
Proof.
  intros HR H u v ru rv Hu Hv Hru Hrv. rewrite <- HR. apply H; assumption.
Qed.

Lemma compression_tracks n s s' h B R :
  ranked s h B -> compression s s' -> tracks n s R -> tracks n s' R.
Proof.
  intros Hr Hc H u v ru rv Hu Hv Hru Hrv.
  apply (H u v); try assumption;
    eapply compression_repr_inv; eassumption.
Qed.

Lemma within_add_pair n x y R :
  within n R -> 0 <= x < n -> 0 <= y < n -> within n (add_pair x y R).
Proof. intros HR Hx Hy u v [H|[-> ->]]; [apply HR, H|auto]. Qed.

Section Link.

Variables (n : Z) (s s' : DisjointSet) (h : value -> nat) (B : nat).
Variables (R : Z -> Z -> Prop) (x y : Z) (rx ry c p : value).

Hypothesis Hranked : ranked s h B.
Hypothesis Hwithin : within n R.
Hypothesis Htracks : tracks n s R.
Hypothesis Hx : 0 <= x < n.
Hypothesis Hy : 0 <= y < n.
Hypothesis Hrx : repr s (Num x) rx.
Hypothesis Hry : repr s (Num y) ry.
Hypothesis Hne : rx <> ry.
Hypothesis Hcp : (c = ry /\ p = rx) \/ (c = rx /\ p = ry).
Hypothesis Hmap : forall k r, repr s k r -> repr s' k (redirect c p r).

Lemma link_roots_merged : redirect c p rx = redirect c p ry.
Proof.
  unfold redirect. destruct Hcp as [[-> ->]|[-> ->]];
    repeat (destruct (decide _)); congruence.
Qed.

Lemma link_closed a b :
  clos_refl_sym_trans Z (add_pair x y R) a b ->
  a = b \/
  (0 <= a < n /\ 0 <= b < n /\
   forall ra rb, repr s (Num a) ra -> repr s (Num b) rb ->
                 redirect c p ra = redirect c p rb).
Proof.
  induction 1 as [a b [HR|[-> ->]]|a|a b _ IH|a b w _ IH1 _ IH2].
  - right. destruct (Hwithin a b HR) as [Ha Hb].
    split; [exact Ha|]. split; [exact Hb|]. intros ra rb Hra Hrb.
    f_equal. apply (Htracks a b ra rb Ha Hb Hra Hrb). apply rst_step, HR.
  - right. split; [exact Hx|]. split; [exact Hy|]. intros ra rb Hra Hrb.
    rewrite (repr_det _ _ _ Hra _ Hrx), (repr_det _ _ _ Hrb _ Hry).
    apply link_roots_merged.
  - left. reflexivity.
  - destruct IH as [->|(Ha & Hb & IH)]; [left; reflexivity|right].
    split; [exact Hb|]. split; [exact Ha|]. intros ra rb Hra Hrb.
    symmetry. apply IH; assumption.
  - destruct IH1 as [->|(Ha & Hb & IH1)]; [exact IH2|].
    destruct IH2 as [<-|(_ & Hw & IH2)]; [right; auto|right].
    split; [exact Ha|]. split; [exact Hw|]. intros ra rw Hra Hrw.
    destruct (repr_exists s h B (Num b) Hranked) as [rb Hrb].
    rewrite (IH1 ra rb Hra Hrb). apply IH2; assumption.
Qed.

Lemma link_tracks : tracks n s' (add_pair x y R).
Proof.
  intros u v ru' rv' Hu Hv Hru' Hrv'.
  destruct (repr_exists s h B (Num u) Hranked) as [ru Hru].
  destruct (repr_exists s h B (Num v) Hranked) as [rv Hrv].
  rewrite (repr_det _ _ _ Hru' _ (Hmap _ _ Hru)).
  rewrite (repr_det _ _ _ Hrv' _ (Hmap _ _ Hrv)).
  pose proof (Htracks u v ru rv Hu Hv Hru Hrv) as Tuv.
  pose proof (Htracks u x ru rx Hu Hx Hru Hrx) as Tux.
  pose proof (Htracks u y ru ry Hu Hy Hru Hry) as Tuy.
  pose proof (Htracks x v rx rv Hx Hv Hrx Hrv) as Txv.
  pose proof (Htracks y v ry rv Hy Hv Hry Hrv) as Tyv.
  assert (Hxy : clos_refl_sym_trans Z (add_pair x y R) x y).
  { apply rst_step. right. auto. }
  split.
  - intros E. destruct (decide (ru = rv)) as [Euv|Nuv].
    { apply clos_add_pair, Tuv, Euv. }
    assert (Hcase : (ru = rx /\ rv = ry) \/ (ru = ry /\ rv = rx)).
    { unfold redirect in E. destruct Hcp as [[-> ->]|[-> ->]];
        destruct (decide (ru = _)), (decide (rv = _)); subst; tauto. }
    destruct Hcase as [[Eu Ev]|[Eu Ev]].
    + apply rst_trans with x; [apply clos_add_pair, Tux, Eu|].
      apply rst_trans with y; [exact Hxy|].
      apply clos_add_pair, Tyv. congruence.
    + apply rst_trans with y; [apply clos_add_pair, Tuy, Eu|].
      apply rst_trans with x; [apply rst_sym, Hxy|].
      apply clos_add_pair, Txv. congruence.
  - intros Hclos. destruct (link_closed u v Hclos) as [->|(_ & _ & H)].
    + rewrite (repr_det _ _ _ Hru _ Hrv). reflexivity.
    + apply H; assumption.
Qed.

End Link.

(** * [union] on vertices in range *)

Lemma union_spec n s B R fuel x y :
  dsu_inv n s B R -> within n R ->
  0 <= x < n -> 0 <= y < n -> (B < fuel)%nat ->
  exists s' b,
    union fuel s (Num x) (Num y) = Some (s', b) /\
    dsu_inv n s' (S B) (add_pair x y R) /\
    (b = false <-> clos_refl_sym_trans Z R x y).
Proof.
  intros ([h Hr] & Hb & Ht) HR Hx Hy Hfuel.
  assert (Hnum : forall i, Num i <> NaN) by discriminate.
  destruct (union_cases s h B fuel (Num x) (Num y) Hr (Hnum x) (Hnum y) Hfuel)
    as (s2 & rx & ry & Hc & Hrx & Hry & Hcases).
  pose proof (Ht x y rx ry Hx Hy Hrx Hry) as Txy.
  destruct (repr_in_bounds n s _ _ Hb Hrx x eq_refl Hx) as (qx & -> & Hqx).
  destruct (repr_in_bounds n s _ _ Hb Hry y eq_refl Hy) as (qy & -> & Hqy).
  pose proof (compression_ranked s s2 h B Hc Hr) as Hr2.
  pose proof (compression_in_bounds n s s2 Hc Hb) as Hb2.
  pose proof (compression_tracks n s s2 h B R Hr Hc Ht) as Ht2.
  pose proof (compression_repr s s2 Hc _ _ Hrx) as Hrx2.
  pose proof (compression_repr s s2 Hc _ _ Hry) as Hry2.
  pose proof (repr_is_root _ _ _ Hrx2) as Hrootx.
  pose proof (repr_is_root _ _ _ Hry2) as Hrooty.
  destruct Hcases as [[E ->]|[Hne Hcases]].
  - exists s2, false. split; [reflexivity|]. split.
    + split; [exists h; apply ranked_weaken, Hr2|]. split; [exact Hb2|].
      apply (tracks_ext n s2 R); [|exact Ht2]. intros u v. split.
      * apply clos_add_pair.
      * apply clos_add_redundant, Txy, E.
    + split; [intros _; apply Txy, E|reflexivity].
  - assert (Hb_true : true = false <-> clos_refl_sym_trans Z R x y).
    { split; [discriminate|]. intros H. apply Txy in H. contradiction. }
    assert (Hyx : forall s',
              (forall k r, repr s2 k r ->
                 repr s' k (redirect (Num qy) (Num qx) r)) ->
              tracks n s' (add_pair x y R)).
    { intros s' Hmap.
      apply (link_tracks n s2 s' h B R x y (Num qx) (Num qy)
               (Num qy) (Num qx)); auto. }
    destruct Hcases as [[_ ->]|[(_ & _ & ->)|(_ & _ & ->)]].
    + eexists _, true. split; [reflexivity|]. split; [|exact Hb_true].
      split; [apply (link_ranked s2 h B); congruence|].
      split; [apply in_bounds_set_parent; assumption|].
      apply Hyx. apply link_repr; congruence.
    + eexists _, true. split; [reflexivity|]. split; [|exact Hb_true].
      split; [apply (link_ranked s2 h B); congruence|].
      split; [apply in_bounds_set_parent; assumption|].
      apply (link_tracks n s2 _ h B R x y (Num qx) (Num qy)
               (Num qx) (Num qy)); auto.
      apply link_repr; congruence.
    + eexists _, true. split; [reflexivity|]. split; [|exact Hb_true].
      destruct (Hb qx Hqx) as [_ (r & Hrk)].
      rewrite (get_lookup _ _ _ Hrk). simpl js_incr.
      split; [apply (link_ranked s2 h B); congruence|].
      split; [apply in_bounds_set_rank, in_bounds_set_parent; assumption|].
      apply Hyx. intros k r0 H. apply repr_set_rank.
      apply link_repr; congruence.
Qed.

(** * The initial state *)

Lemma constructor_normal n :
  0 <= n ->
  constructor n = Normal (mkDSU (array_init n Num)
                                (array_init n (fun _ => Num 0))).
Proof.
  intros Hn. unfold constructor.
  destruct (Z.ltb_spec n 0); [lia|reflexivity].
Qed.

Lemma get_array_init n f k :
  get (array_init n f) k =
  match k with
  | Num i => if (0 <=? i) && (i <? n) then f i else Undefined
  | _ => Undefined
  end.
Proof.
  unfold get. destruct k as [i| |].
  - destruct (Z.leb_spec 0 i); simpl.
    + destruct (Z.ltb_spec i n).
      * rewrite array_init_in by lia. reflexivity.
      * rewrite array_init_out by lia. reflexivity.
    + rewrite array_init_out by lia. reflexivity.
  - unfold array_init. rewrite array_init_nat_other; [reflexivity|].
    intros i; discriminate.
  - unfold array_init. rewrite array_init_nat_other; [reflexivity|].
    intros i; discriminate.
Qed.

Lemma initial_ranked n (rk : gmap value value) :
  ranked (mkDSU (array_init n Num) rk)
         (fun k => match k with Undefined => 1%nat | _ => 0%nat end) 1.
Proof.
  split.
  - intros k. simpl. rewrite get_array_init. destruct k as [i| |].
    + destruct ((0 <=? i) && (i <? n)).
      * split; [discriminate|left; reflexivity].
      * split; [discriminate|right; lia].
    + split; [discriminate|left; reflexivity].
    + split; [discriminate|right; lia].
  - intros [i| |]; lia.
Qed.

Lemma clos_empty (R : Z -> Z -> Prop) u v :
  (forall a b, ~ R a b) -> clos_refl_sym_trans Z R u v -> u = v.
Proof.
  intros HR H. induction H as [u v Hs|u|u v _ IH|u v w _ IH1 _ IH2];
    [destruct (HR _ _ Hs)|reflexivity|congruence|congruence].
Qed.

Lemma initial_inv n s (R : Z -> Z -> Prop) :
  constructor n = Normal s -> (forall a b, ~ R a b) -> dsu_inv n s 1 R.
Proof.
  unfold constructor. destruct (n <? 0); [discriminate|].
  intros [= <-] HR. split; [eexists; apply initial_ranked|].
  assert (Hroot : forall i, 0 <= i < n ->
            forall r, repr (mkDSU (array_init n Num)
                                  (array_init n (fun _ => Num 0))) (Num i) r ->
                      r = Num i).
  { intros i Hi r H. eapply repr_of_root; [|exact H].
    simpl. apply get_lookup, array_init_in, Hi. }
  split.
  - intros i Hi. simpl. rewrite !array_init_in by exact Hi. eauto.
  - intros u v ru rv Hu Hv Hru Hrv.
    rewrite (Hroot u Hu ru Hru), (Hroot v Hv rv Hrv). split.
    + intros [= ->]. apply rst_refl.
    + intros H. f_equal. eapply clos_empty; eassumption.
Qed.

(** * Sums of doubles *)

Lemma limit_large : 2 ^ 53 < double_limit.
Proof. vm_compute. reflexivity. Qed.

Lemma ulp_small z : Z.abs z < 2 ^ 53 -> ulp z = 1.
Proof.
  intros H. unfold ulp.
  assert (Z.log2 (Z.abs z) < 53).
  { destruct (Z.eq_dec (Z.abs z) 0) as [->|Hne]; [reflexivity|].
    apply Z.log2_lt_pow2; lia. }
  rewrite Z.max_l by lia. reflexivity.
Qed.

(** Up to [2^53] every integer is a double. *)
Lemma round_nearest_even_exact z :
  Z.abs z <= 2 ^ 53 -> round_nearest_even z = z.
Proof.
  intros H. destruct (Z.eq_dec (Z.abs z) (2 ^ 53)) as [E|Hne].
  - destruct (Z.abs_eq_or_opp z) as [E'|E']; rewrite E' in E.
    + rewrite E. vm_compute. reflexivity.
    + assert (z = - 2 ^ 53) as -> by lia. vm_compute. reflexivity.
  - unfold round_nearest_even. rewrite ulp_small by lia.
    rewrite Z.div_1_r, Z.mod_1_r. simpl. lia.
Qed.

Lemma round_double_exact z : Z.abs z <= 2 ^ 53 -> round_double z = Fin z.
Proof.
  intros H. pose proof limit_large as HL. unfold round_double.
  destruct (Z.leb_spec double_limit z); [lia|].
  destruct (Z.leb_spec z (- double_limit)); [lia|].
  rewrite round_nearest_even_exact by exact H. reflexivity.
Qed.

Lemma js_sum_snoc a l e :
  js_sum a (l ++ [e]) = js_add (js_sum a l) (weight e).
Proof. unfold js_sum. rewrite fold_left_app. reflexivity. Qed.

Lemma js_sum_map a l l' :
  map weight l = map weight l' -> js_sum a l = js_sum a l'.
Proof.
  revert a l'. induction l as [|e l IH]; intros a [|e' l'] H;
    try discriminate H; [reflexivity|].
  simpl in H. injection H as Hw Hl. simpl. rewrite Hw. apply IH, Hl.
Qed.

Lemma sum_abs_nonneg l : 0 <= sum_abs l.
Proof. induction l as [|e l IH]; simpl; lia. Qed.

Lemma sum_abs_app l l' : sum_abs (l ++ l') = sum_abs l + sum_abs l'.
Proof. induction l as [|e l IH]; simpl; lia. Qed.

Lemma sum_abs_perm l l' : Permutation l l' -> sum_abs l = sum_abs l'.
Proof. induction 1; simpl; lia. Qed.

(** While the absolute values stay within [2^53] no addition rounds. *)
Lemma js_sum_exact l :
  forall a, Z.abs a + sum_abs l <= 2 ^ 53 ->
            js_sum (Fin a) l = Fin (a + sum_weights l).
Proof.
  induction l as [|e l IH]; intros a H; simpl in *.
  - f_equal. lia.
  - pose proof (sum_abs_nonneg l).
    rewrite round_double_exact by lia.
    change (fold_left (fun c e0 => js_add c (weight e0)) l (Fin (a + weight e)))
      with (js_sum (Fin (a + weight e)) l).
    rewrite IH by lia. f_equal. lia.
Qed.

Lemma greedy_sum_abs V edges :
  forall acc, sum_abs (greedy V edges acc) <= sum_abs acc + sum_abs edges.
Proof.
  induction edges as [|e rest IH]; intros acc; simpl; [lia|].
  pose proof (sum_abs_nonneg rest).
  destruct (Z.of_nat (length acc) =? V - 1); [lia|].
  destruct (connb acc (source e) (destination e)).
  - specialize (IH acc). lia.
  - specialize (IH (acc ++ [e])). rewrite sum_abs_app in IH. simpl in IH. lia.
Qed.

(** * A larger budget changes nothing *)

Lemma find_mono fuel s k res :
  find fuel s k = Some res ->
  forall fuel', (fuel <= fuel')%nat -> find fuel' s k = Some res.
Proof.
  revert k res. induction fuel as [|fuel IH]; intros k res H fuel' Hle;
    [discriminate|].
  destruct fuel' as [|fuel']; [lia|]. simpl in *.
  destruct (strict_eq (get (parent s) k) k); [exact H|].
  destruct (find fuel s (get (parent s) k)) as [[s1 r]|] eqn:Hf;
    [|discriminate].
  rewrite (IH _ _ Hf fuel') by lia. exact H.
Qed.

Lemma union_mono fuel s x y res :
  union fuel s x y = Some res ->
  forall fuel', (fuel <= fuel')%nat -> union fuel' s x y = Some res.
Proof.
  unfold union. intros H fuel' Hle.
  destruct (find fuel s x) as [[s1 rx]|] eqn:H1; [|discriminate].
  rewrite (find_mono _ _ _ _ H1 fuel' Hle).
  destruct (find fuel s1 y) as [[s2 ry]|] eqn:H2; [|discriminate].
  rewrite (find_mono _ _ _ _ H2 fuel' Hle). exact H.
Qed.

Lemma kruskal_loop_mono fuel V edges :
  forall dsu acc c res,
    kruskal_loop fuel V edges dsu acc c = Some res ->
    forall fuel', (fuel <= fuel')%nat ->
      kruskal_loop fuel' V edges dsu acc c = Some res.
Proof.
  induction edges as [|e rest IH]; intros dsu acc c res H fuel' Hle;
    simpl in *; [exact H|].
  destruct (Z.of_nat (length acc) =? V - 1); [exact H|].
  destruct (union fuel dsu (Num (source e)) (Num (destination e)))
    as [[dsu' b]|] eqn:Hu; [|discriminate].
  rewrite (union_mono _ _ _ _ _ Hu fuel' Hle).
  destruct b; eapply IH; eassumption.
Qed.

Lemma kruskalMST_mono fuel V allEdges o :
  kruskalMST fuel V allEdges = Some o ->
  forall fuel', (fuel <= fuel')%nat -> kruskalMST fuel' V allEdges = Some o.
Proof.
  unfold kruskalMST. intros H fuel' Hle.
  destruct (constructor V) as [dsu|err]; [|exact H].
  destruct (kruskal_loop fuel V _ dsu [] (Fin 0)) as [r|] eqn:Hl;
    [|discriminate].
  rewrite (kruskal_loop_mono _ _ _ _ _ _ _ Hl fuel' Hle). exact H.
Qed.

(** * The loop, for arbitrary edges *)

(** The loop returns whatever the indices are. *)
Lemma kruskal_loop_total fuel V edges :
  forall dsu acc c h B,
    ranked dsu h B -> (B + length edges < fuel)%nat ->
    exists r, kruskal_loop fuel V edges dsu acc c = Some r.
Proof.
  induction edges as [|e rest IH]; intros dsu acc c h B Hr Hfuel; simpl;
    [eauto|].
  destruct (Z.of_nat (length acc) =? V - 1); [eauto|].
  destruct (union_total dsu h B fuel (Num (source e)) (Num (destination e)))
    as (dsu' & b & h' & -> & Hr'); try discriminate; try assumption.
  { simpl in Hfuel. lia. }
  simpl in Hfuel. destruct b; eapply (IH _ _ _ h' (S B)); try exact Hr'; lia.
Qed.

(** What it returns extends the accumulator by visited edges, in order,
    and the running cost stays the sum of their weights, added one after
    the other. *)
Lemma kruskal_loop_result fuel V edges :
  forall dsu acc c r,
    kruskal_loop fuel V edges dsu acc c = Some r ->
    (c = js_sum (Fin 0) acc -> cost r = js_sum (Fin 0) (mst r)) /\
    incl (mst r) (acc ++ edges) /\
    (StronglySorted le_weight (acc ++ edges) ->
     StronglySorted le_weight (mst r)).
Proof.
  induction edges as [|e rest IH]; intros dsu acc c r H; simpl in H.
  { injection H as <-. simpl. rewrite app_nil_r. auto using incl_refl. }
  destruct (Z.of_nat (length acc) =? V - 1).
  { injection H as <-. simpl. split; [auto|].
    split; [apply incl_appl, incl_refl|apply sorted_app_l]. }
  destruct (union fuel dsu (Num (source e)) (Num (destination e)))
    as [[dsu' b]|]; [|discriminate].
  destruct b; apply IH in H; destruct H as (Hc & Hi & Hs).
  - split; [|split].
    + intros ->. apply Hc. rewrite js_sum_snoc. reflexivity.
    + rewrite <- app_assoc in Hi. exact Hi.
    + intros H. apply Hs. rewrite <- app_assoc. exact H.
  - split; [exact Hc|]. split.
    + intros a Ha. apply Hi, in_app_or in Ha. apply in_or_app.
      destruct Ha; [left|right; right]; assumption.
    + intros H. apply Hs. eapply sorted_app_remove, H.
Qed.


(** * The loop on a valid graph is Kruskal's selection *)

Lemma within_linked V acc : Forall (in_range V) acc -> within V (linked acc).
Proof.
  intros H u v (e & He & <- & <-).
  rewrite List.Forall_forall in H. apply (H e He).
Qed.

Lemma linked_snoc acc e u v :
  linked (acc ++ [e]) u v <->
  add_pair (source e) (destination e) (linked acc) u v.
Proof.
  split.
  - intros (a & Ha & <- & <-). apply in_app_or in Ha.
    destruct Ha as [Ha|[<-|[]]]; [left; exists a; auto|right; auto].
  - intros [(a & Ha & <- & <-)|[-> ->]].
    + exists a. split; [apply in_or_app; auto|auto].
    + exists e. split; [apply in_or_app; right; left|]; auto.
Qed.

Lemma dsu_inv_ext n s B (R R' : Z -> Z -> Prop) :
  (forall u v, clos_refl_sym_trans Z R u v <-> clos_refl_sym_trans Z R' u v) ->
  dsu_inv n s B R -> dsu_inv n s B R'.
Proof.
  intros HR (Hr & Hb & Ht). split; [exact Hr|]. split; [exact Hb|].
  eapply tracks_ext; eassumption.
Qed.

Lemma kruskal_loop_greedy fuel V edges :
  forall dsu acc B,
    Forall (in_range V) edges -> Forall (in_range V) acc ->
    dsu_inv V dsu B (linked acc) ->
    (B + length edges < fuel)%nat ->
    kruskal_loop fuel V edges dsu acc (js_sum (Fin 0) acc) =
    Some (mkResult (greedy V edges acc)
                   (js_sum (Fin 0) (greedy V edges acc))).
Proof.
  induction edges as [|e rest IH]; intros dsu acc B He Hacc Hinv Hfuel;
    simpl; [reflexivity|].
  destruct (Z.of_nat (length acc) =? V - 1); [reflexivity|].
  inversion He as [|? ? [Hs Hd] Hrest]; subst. simpl in Hfuel.
  destruct (union_spec V dsu B (linked acc) fuel (source e) (destination e)
              Hinv (within_linked V acc Hacc) Hs Hd)
    as (dsu' & b & -> & Hinv' & Hb); [lia|].
  destruct b.
  - assert (Hc : connb acc (source e) (destination e) = false).
    { apply connb_false. intros H. apply Hb in H. discriminate. }
    rewrite Hc.
    rewrite <- js_sum_snoc.
    apply (IH dsu' (acc ++ [e]) (S B)); try assumption; [| |lia].
    + apply List.Forall_app. split; [exact Hacc|].
      constructor; [split; assumption|constructor].
    + revert Hinv'. apply dsu_inv_ext. intros u v.
      split; apply clos_mono; intros a c H; apply rst_step, linked_snoc, H.
  - assert (Hc : conn acc (source e) (destination e))
      by (apply Hb; reflexivity).
    rewrite (proj2 (connb_conn _ _ _) Hc).
    apply (IH dsu' acc (S B)); try assumption; [|lia].
    revert Hinv'. apply dsu_inv_ext. intros u v. split.
    + apply clos_add_redundant, Hc.
    + apply clos_add_pair.
Qed.

(** * Reachable states *)

Lemma united_cons x y us u v :
  united ((x, y) :: us) u v <-> add_pair x y (united us) u v.
Proof.
  unfold united, add_pair. simpl. split.
  - intros [[= -> ->]|H]; auto.
  - intros [H|[-> ->]]; auto.
Qed.

Lemma reachable_inv n s us :
  reachable n s us ->
  (exists B, dsu_inv n s B (united us)) /\ within n (united us).
Proof.
  induction 1 as [s Hs|s us fuel i s' r _ [[B Hinv] Hw] Hi Hf
                 |s us fuel x y s' b _ [[B Hinv] Hw] Hx Hy Hu].
  - split; [exists 1%nat; apply initial_inv; [exact Hs|]|]; intros a b [].
  - split; [|exact Hw]. exists B. destruct Hinv as ([h Hr] & Hb & Ht).
    destruct (find_spec s h B Hr (fuel + S B) (Num i))
      as (s1 & r1 & Hf1 & _ & Hc); [discriminate|lia|].
    rewrite (find_mono _ _ _ _ Hf (fuel + S B)) in Hf1 by lia.
    injection Hf1 as <- <-.
    split; [exists h; eapply compression_ranked; eassumption|].
    split; [eapply compression_in_bounds; eassumption|].
    eapply compression_tracks; eassumption.
  - split.
    + exists (S B).
      destruct (union_spec n s B (united us) (fuel + S B) x y Hinv Hw Hx Hy)
        as (s1 & b1 & Hu1 & Hinv1 & _); [lia|].
      rewrite (union_mono _ _ _ _ _ Hu (fuel + S B)) in Hu1 by lia.
      injection Hu1 as <- <-. revert Hinv1. apply dsu_inv_ext.
      intros u v. split; apply clos_mono; intros a c H;
        apply rst_step, united_cons, H.
    + intros u v H. apply united_cons in H.
      revert u v H. apply within_add_pair; assumption.
Qed.

(** * [kruskalMST] *)

Lemma spanning_forest_perm G G' F :
  Permutation G G' -> spanning_forest G F -> spanning_forest G' F.
Proof.
  intros HP (Hi & Hf & Hs). split; [|split; [exact Hf|]].
  - intros e He. eapply Permutation_in; [exact HP|]. apply Hi, He.
  - intros u v H. apply Hs. revert H. apply conn_incl.
    intros e He. eapply Permutation_in; [apply Permutation_sym, HP|exact He].
Qed.

Lemma kruskalMST_valid V allEdges fuel :
  0 <= V -> Forall (in_range V) allEdges ->
  (length allEdges + 2 <= fuel)%nat ->
  kruskalMST fuel V allEdges =
  Some (mkOutcome (sort by_weight allEdges)
          (Normal (mkResult
             (greedy V (sort by_weight allEdges) [])
             (js_sum (Fin 0) (greedy V (sort by_weight allEdges) []))))).
Proof.
  intros HV Hr Hfuel. unfold kruskalMST.
  pose proof (sort_perm by_weight allEdges) as HP.
  rewrite (constructor_normal V HV).
  rewrite (kruskal_loop_greedy fuel V _ _ [] 1); [reflexivity| | | |].
  - eapply Permutation_Forall; eassumption.
  - constructor.
  - apply initial_inv; [apply constructor_normal, HV|].
    intros a b (e & [] & _).
  - rewrite <- (Permutation_length HP). lia.
Qed.

Lemma kruskalMST_total V allEdges fuel :
  (length allEdges + 2 <= fuel)%nat ->
  exists o, kruskalMST fuel V allEdges = Some o /\
            allEdges_after o = sort by_weight allEdges /\
            (0 <= V -> exists r, completed o = Normal r) /\
            (V < 0 -> completed o = Throw RangeError).
Proof.
  intros Hfuel. unfold kruskalMST, constructor.
  pose proof (sort_perm by_weight allEdges) as HP.
  destruct (Z.ltb_spec V 0) as [Hneg|Hpos].
  - eexists. split; [reflexivity|]. simpl. split; [reflexivity|].
    split; [lia|reflexivity].
  - edestruct (kruskal_loop_total fuel V (sort by_weight allEdges))
      as [r ->].
    + apply initial_ranked.
    + rewrite <- (Permutation_length HP). lia.
    + eexists. split; [reflexivity|]. simpl. split; [reflexivity|].
      split; [eauto|lia].
Qed.






Lemma kruskalMST_outcome fuel V allEdges o r :
  kruskalMST fuel V allEdges = Some o -> completed o = Normal r ->
  cost r = js_sum (Fin 0) (mst r) /\
  incl (mst r) allEdges /\
  StronglySorted le_weight (mst r).
Proof.
  unfold kruskalMST. intros H Hc.
  destruct (constructor V) as [dsu|err].
  - destruct (kruskal_loop fuel V _ dsu [] (Fin 0)) as [r'|] eqn:Hl;
      [|discriminate].
    injection H as <-. simpl in Hc. injection Hc as ->.
    apply kruskal_loop_result in Hl. destruct Hl as (Hcost & Hin & Hs).
    split; [apply Hcost; reflexivity|]. split.
    + intros e He. apply Hin in He. simpl in He.
      eapply Permutation_in; [apply Permutation_sym, sort_perm|exact He].
    + apply Hs. simpl. apply sort_sorted.
  - injection H as <-. discriminate Hc.
Qed.


Lemma kruskalMST_returns V allEdges :
  exists o,
    (forall fuel, (length allEdges + 2 <= fuel)%nat ->
       kruskalMST fuel V allEdges = Some o) /\
    allEdges_after o = sort by_weight allEdges /\
    (0 <= V -> exists r, completed o = Normal r) /\
    (V < 0 -> completed o = Throw RangeError).
Proof.
  destruct (kruskalMST_total V allEdges (length allEdges + 2))
    as (o & Ho & Hrest); [lia|].
  exists o. split; [|exact Hrest].
  intros fuel Hfuel. eapply kruskalMST_mono; eassumption.
Qed.

(** C7.  Scenario 1: with four vertices and the five edges of the
    specification the call returns cost 19 and the edges (2,3,4), (0,3,5),
    (0,1,10), in this order. *)
Theorem kruskalMST_scenario1 fuel :
  (2 <= fuel)%nat ->
  kruskalMST fuel 4 scenario1 =
  Some (mkOutcome
          [mkEdge 2 3 4; mkEdge 0 3 5; mkEdge 0 2 6; mkEdge 0 1 10;
           mkEdge 1 3 15]
          (Normal (mkResult [mkEdge 2 3 4; mkEdge 0 3 5; mkEdge 0 1 10]
                            (Fin 19)))).
Proof.
  intros Hfuel. apply (kruskalMST_mono 2); [|exact Hfuel].
  vm_compute. reflexivity.
Qed.

Lemma kruskalMST_scenario1_witness :
  kruskalMST 2 4 scenario1 =
  Some (mkOutcome
          [mkEdge 2 3 4; mkEdge 0 3 5; mkEdge 0 2 6; mkEdge 0 1 10;
           mkEdge 1 3 15]
          (Normal (mkResult [mkEdge 2 3 4; mkEdge 0 3 5; mkEdge 0 1 10]
                            (Fin 19)))).
Proof. apply (kruskalMST_scenario1 2). lia. Defined.

(** * No vertex, one vertex *)

Lemma find_all_undefined s f x :
  (forall k, get (parent s) k = Undefined) ->
  find (S (S f)) s (Num x) = Some (set_parent s (Num x) Undefined, Undefined).
Proof.
  intros H. simpl. rewrite !H. simpl. rewrite get_set_eq. reflexivity.
Qed.

Lemma set_parent_all_undefined s k :
  (forall k', get (parent s) k' = Undefined) ->
  forall k', get (parent (set_parent s k Undefined)) k' = Undefined.
Proof.
  intros H k'. simpl. destruct (decide (k = k')) as [<-|Hne].
  - apply get_set_eq.
  - rewrite get_set_ne by exact Hne. apply H.
Qed.

Lemma kruskal_loop_no_vertex fuel edges :
  (2 <= fuel)%nat ->
  forall dsu,
    (forall k, get (parent dsu) k = Undefined) ->
    kruskal_loop fuel 0 edges dsu [] (Fin 0) = Some (mkResult [] (Fin 0)).
Proof.
  intros Hfuel. destruct fuel as [|[|f]]; try lia.
  induction edges as [|e rest IH]; intros dsu H; [reflexivity|].
  cbn [kruskal_loop length]. simpl (_ =? _). cbv iota.
  unfold union. rewrite (find_all_undefined _ _ _ H).
  rewrite (find_all_undefined _ _ _ (set_parent_all_undefined _ _ H)).
  simpl strict_eq. simpl negb. cbv iota.
  apply IH. intros k. do 2 apply set_parent_all_undefined. exact H.
Qed.

(** C6.  Without vertices and with one vertex the result is empty and
    costs 0, whatever the edges are. *)
Theorem kruskalMST_no_vertex_or_one allEdges fuel :
  (2 <= fuel)%nat ->
  kruskalMST fuel 0 allEdges =
    Some (mkOutcome (sort by_weight allEdges) (Normal (mkResult [] (Fin 0)))) /\
  kruskalMST fuel 1 allEdges =
    Some (mkOutcome (sort by_weight allEdges) (Normal (mkResult [] (Fin 0)))).
Proof.
  intros Hfuel. unfold kruskalMST. split.
  - rewrite (constructor_normal 0) by lia.
    rewrite kruskal_loop_no_vertex; [reflexivity|exact Hfuel|].
    intros k. simpl. rewrite get_array_init.
    destruct k as [i| |]; try reflexivity.
    destruct (Z.leb_spec 0 i); [|reflexivity].
    destruct (Z.ltb_spec i 0); [lia|reflexivity].
  - rewrite (constructor_normal 1) by lia.
    destruct (sort by_weight allEdges); reflexivity.
Qed.

Lemma kruskalMST_no_vertex_or_one_witness :
  kruskalMST 2 0 [mkEdge 0 5 1; mkEdge 0 0 3] =
    Some (mkOutcome (sort by_weight [mkEdge 0 5 1; mkEdge 0 0 3])
            (Normal (mkResult [] (Fin 0)))) /\
  kruskalMST 2 1 [mkEdge 0 5 1; mkEdge 0 0 3] =
    Some (mkOutcome (sort by_weight [mkEdge 0 5 1; mkEdge 0 0 3])
            (Normal (mkResult [] (Fin 0)))).
Proof. apply (kruskalMST_no_vertex_or_one _ 2). lia. Defined.




(** C10.  The edges returned are in order of non-decreasing weight and
    each of them is an edge of the input. *)
Theorem kruskalMST_sorted_subset V allEdges :
  (exists o, forall fuel, (length allEdges + 2 <= fuel)%nat ->
               kruskalMST fuel V allEdges = Some o) /\
  (forall fuel o r,
     kruskalMST fuel V allEdges = Some o -> completed o = Normal r ->
     StronglySorted le_weight (mst r) /\
     (forall e, In e (mst r) -> In e allEdges)).
Proof.
  split.
  - destruct (kruskalMST_returns V allEdges) as (o & Ho & _). eauto.
  - intros fuel o r Ho Hr.
    destruct (kruskalMST_outcome fuel V allEdges o r Ho Hr) as (_ & Hi & Hs).
    split; [exact Hs|exact Hi].
Qed.

Lemma kruskalMST_sorted_subset_witness :
  StronglySorted le_weight [mkEdge 2 3 4; mkEdge 0 3 5; mkEdge 0 1 10] /\
  (forall e, In e [mkEdge 2 3 4; mkEdge 0 3 5; mkEdge 0 1 10] ->
             In e scenario1).
Proof.
  apply (proj2 (kruskalMST_sorted_subset 4 scenario1) 2%nat
           (mkOutcome (sort by_weight scenario1)
              (Normal (mkResult [mkEdge 2 3 4; mkEdge 0 3 5; mkEdge 0 1 10]
                                (Fin 19))))
           (mkResult [mkEdge 2 3 4; mkEdge 0 3 5; mkEdge 0 1 10] (Fin 19)));
    reflexivity.
Defined.

(** * The structure after any calls in range *)

Lemma find_repr s h B fuel k s' r :
  ranked s h B -> k <> NaN -> find fuel s k = Some (s', r) ->
  repr s k r /\ compression s s'.
Proof.
  intros Hr Hk Hf.
  destruct (find_spec s h B Hr (fuel + S B) k Hk) as (s1 & r1 & Hf1 & H);
    [lia|].
  rewrite (find_mono _ _ _ _ Hf (fuel + S B)) in Hf1 by lia.
  injection Hf1 as <- <-. exact H.
Qed.

Lemma chain_state_reachable :
  reachable 4 chain_state [(0, 2); (2, 3); (0, 1)].
Proof.
  apply (reach_union 4 (after_union (after_union (fresh 4) 0 1) 2 3)
           _ 4 0 2 _ true); try lia.
  - apply (reach_union 4 (after_union (fresh 4) 0 1) _ 4 2 3 _ true);
      try lia.
    + apply (reach_union 4 (fresh 4) _ 4 0 1 _ true); try lia.
      * apply reach_new. reflexivity.
      * reflexivity.
    + reflexivity.
  - reflexivity.
Qed.

Lemma chain_state_root_3 : repr chain_state (Num 3) (Num 0).
Proof.
  apply repr_step; [vm_compute; discriminate|].
  apply repr_step; [vm_compute; discriminate|].
  apply repr_root. reflexivity.
Qed.

Lemma chain_state_root_0 : repr chain_state (Num 0) (Num 0).
Proof. apply repr_root. reflexivity. Qed.

(** C3.  In every state reached from [new DisjointSet(n)] by calls of
    [find] and [union] with indices in [0 .. n-1]: the parent relation is
    acyclic and finite (a bounded height increases strictly towards the
    parent); [find(i)] returns for every [i] in range, and what it returns
    is a root in range that lies in the component of [i]; and two vertices
    lie in the same component (of the partition generated by the pairs
    given to [union]) exactly when [find] returns the same for both. *)
Theorem reachable_find_representative n s us :
  reachable n s us ->
  (exists h B, ranked s h B) /\
  (exists N, forall fuel i,
     (N <= fuel)%nat -> 0 <= i < n ->
     exists s' r,
       find fuel s (Num i) = Some (s', Num r) /\ 0 <= r < n /\
       get (parent s) (Num r) = Num r /\
       clos_refl_sym_trans Z (united us) i r) /\
  (forall fuel fuel' i j si ri sj rj,
     0 <= i < n -> 0 <= j < n ->
     find fuel s (Num i) = Some (si, ri) ->
     find fuel' s (Num j) = Some (sj, rj) ->
     (ri = rj <-> clos_refl_sym_trans Z (united us) i j)).
Proof.
  intros H. destruct (reachable_inv n s us H) as [[B ([h Hr] & Hb & Ht)] Hw].
  assert (Hnum : forall i, Num i <> NaN) by discriminate.
  split; [eauto|]. split.
  - exists (S B). intros fuel i Hfuel Hi.
    destruct (find_spec s h B Hr fuel (Num i) (Hnum i))
      as (s' & r & Hf & Hrepr & _); [lia|].
    destruct (repr_in_bounds n s _ _ Hb Hrepr i eq_refl Hi) as (q & -> & Hq).
    exists s', q. split; [exact Hf|]. split; [exact Hq|].
    pose proof (repr_is_root _ _ _ Hrepr) as Hroot.
    split; [exact Hroot|].
    apply (Ht i q (Num q) (Num q) Hi Hq Hrepr); [|reflexivity].
    apply repr_root, Hroot.
  - intros fuel fuel' i j si ri sj rj Hi Hj Hfi Hfj.
    apply (find_repr s h B) in Hfi, Hfj; try assumption; try apply Hnum.
    apply Ht; tauto.
Qed.

Lemma reachable_find_representative_witness :
  (exists h B, ranked chain_state h B) /\
  (exists N, forall fuel i,
     (N <= fuel)%nat -> 0 <= i < 4 ->
     exists s' r,
       find fuel chain_state (Num i) = Some (s', Num r) /\ 0 <= r < 4 /\
       get (parent chain_state) (Num r) = Num r /\
       clos_refl_sym_trans Z (united [(0, 2); (2, 3); (0, 1)]) i r) /\
  (forall fuel fuel' i j si ri sj rj,
     0 <= i < 4 -> 0 <= j < 4 ->
     find fuel chain_state (Num i) = Some (si, ri) ->
     find fuel' chain_state (Num j) = Some (sj, rj) ->
     (ri = rj <->
      clos_refl_sym_trans Z (united [(0, 2); (2, 3); (0, 1)]) i j)).
Proof.
  apply (reachable_find_representative 4 chain_state
           [(0, 2); (2, 3); (0, 1)]).
  exact chain_state_reachable.
Defined.

(** C4.  [union(x, y)] on two vertices in range whose roots [rx] and [ry]
    differ returns [true]; the root of strictly greater rank becomes the
    parent of the other and stays a root; on equal rank [rx] becomes the
    parent of [ry], stays a root, and its rank grows by one, all other
    ranks being kept. *)
Theorem union_by_rank n s us x y rx ry :
  reachable n s us -> 0 <= x < n -> 0 <= y < n ->
  repr s (Num x) rx -> repr s (Num y) ry -> rx <> ry ->
  exists a b,
    get (rank s) rx = Num a /\ get (rank s) ry = Num b /\
    exists N, forall fuel, (N <= fuel)%nat ->
      exists s',
        union fuel s (Num x) (Num y) = Some (s', true) /\
        (b < a ->
         get (parent s') ry = rx /\ get (parent s') rx = rx /\
         rank s' = rank s) /\
        (a < b ->
         get (parent s') rx = ry /\ get (parent s') ry = ry /\
         rank s' = rank s) /\
        (a = b ->
         get (parent s') ry = rx /\ get (parent s') rx = rx /\
         get (rank s') rx = Num (a + 1) /\
         forall k, k <> rx -> rank s' !! k = rank s !! k).
Proof.
  intros H Hx Hy Hrx Hry Hne.
  destruct (reachable_inv n s us H) as [[B ([h Hr] & Hb & Ht)] Hw].
  assert (Hnum : forall i, Num i <> NaN) by discriminate.
  destruct (repr_in_bounds n s _ _ Hb Hrx x eq_refl Hx) as (qx & -> & Hqx).
  destruct (repr_in_bounds n s _ _ Hb Hry y eq_refl Hy) as (qy & -> & Hqy).
  destruct (Hb qx Hqx) as [_ (a & Ha)]. destruct (Hb qy Hqy) as [_ (b & Hb')].
  apply get_lookup in Ha, Hb'.
  exists a, b. split; [exact Ha|]. split; [exact Hb'|].
  exists (S B). intros fuel Hfuel.
  destruct (union_cases s h B fuel (Num x) (Num y) Hr (Hnum x) (Hnum y))
    as (s2 & rx' & ry' & Hc & Hrx' & Hry' & Hcases); [lia|].
  rewrite (repr_det _ _ _ Hrx' _ Hrx) in *.
  rewrite (repr_det _ _ _ Hry' _ Hry) in *. clear Hrx' Hry'.
  assert (Hrootx : get (parent s2) (Num qx) = Num qx).
  { eapply compression_root; [exact Hc|]. eapply repr_is_root, Hrx. }
  assert (Hrooty : get (parent s2) (Num qy) = Num qy).
  { eapply compression_root; [exact Hc|]. eapply repr_is_root, Hry. }
  assert (Hrk : rank s2 = rank s) by apply Hc.
  rewrite Ha, Hb' in Hcases. unfold js_lt in Hcases. simpl in Hcases.
  destruct Hcases as [[E _]|[_ [[Hgt ->]|[(Hgt & Hlt & ->)|(Hgt & Hlt & ->)]]]];
    [contradiction| | |]; eexists; (split; [reflexivity|]);
    apply Z.ltb_lt in Hgt || apply Z.ltb_ge in Hgt;
    try (apply Z.ltb_lt in Hlt || apply Z.ltb_ge in Hlt);
    (split; [|split]); intros Hab; try lia; simpl.
  - rewrite get_set_eq, get_set_ne by congruence. auto.
  - rewrite get_set_eq, get_set_ne by congruence. auto.
  - rewrite !get_set_eq, get_set_ne by congruence.
    split; [reflexivity|]. split; [exact Hrootx|]. split; [reflexivity|].
    intros k Hk. unfold set. rewrite lookup_insert_ne by congruence.
    rewrite Hrk. reflexivity.
Qed.

Lemma union_by_rank_witness :
  exists a b,
    get (rank (fresh 4)) (Num 0) = Num a /\
    get (rank (fresh 4)) (Num 1) = Num b /\
    exists N, forall fuel, (N <= fuel)%nat ->
      exists s',
        union fuel (fresh 4) (Num 0) (Num 1) = Some (s', true) /\
        (b < a ->
         get (parent s') (Num 1) = Num 0 /\ get (parent s') (Num 0) = Num 0 /\
         rank s' = rank (fresh 4)) /\
        (a < b ->
         get (parent s') (Num 0) = Num 1 /\ get (parent s') (Num 1) = Num 1 /\
         rank s' = rank (fresh 4)) /\
        (a = b ->
         get (parent s') (Num 1) = Num 0 /\ get (parent s') (Num 0) = Num 0 /\
         get (rank s') (Num 0) = Num (a + 1) /\
         forall k, k <> Num 0 -> rank s' !! k = rank (fresh 4) !! k).
Proof.
  apply (union_by_rank 4 (fresh 4) [] 0 1 (Num 0) (Num 1)).
  - apply reach_new. reflexivity.
  - lia.
  - lia.
  - apply repr_root. reflexivity.
  - apply repr_root. reflexivity.
  - discriminate.
Defined.

(** C5, as stated, fails: in the state with the path 3 -> 2 -> 0, which
    three calls of [union] reach, [union(3, 0)] joins nothing and returns
    [false], yet [find(3)] has redirected [parent[3]] from 2 to 0. *)
Lemma union_same_set_compresses :
  reachable 4 chain_state [(0, 2); (2, 3); (0, 1)] /\
  repr chain_state (Num 3) (Num 0) /\
  repr chain_state (Num 0) (Num 0) /\
  exists s',
    union 4 chain_state (Num 3) (Num 0) = Some (s', false) /\
    parent chain_state !! Num 3 = Some (Num 2) /\
    parent s' !! Num 3 = Some (Num 0) /\
    s' <> chain_state.
Proof.
  split; [exact chain_state_reachable|].
  split; [exact chain_state_root_3|].
  split; [exact chain_state_root_0|].
  eexists. split; [reflexivity|]. split; [reflexivity|].
  split; [reflexivity|].
  intros H. apply (f_equal (fun s => parent s !! Num 3)) in H.
  vm_compute in H. discriminate H.
Qed.

(** C5, amended.  [union(x, y)] on two vertices in range with the same root
    returns [false], keeps [rank] and every root, and changes [parent]
    only as path compression does: an entry either keeps its value or,
    for a non-root, is redirected to the root of its tree. *)
Theorem union_same_set n s us x y r :
  reachable n s us -> 0 <= x < n -> 0 <= y < n ->
  repr s (Num x) r -> repr s (Num y) r ->
  exists N, forall fuel, (N <= fuel)%nat ->
    exists s',
      union fuel s (Num x) (Num y) = Some (s', false) /\
      rank s' = rank s /\
      (forall k,
         parent s' !! k = parent s !! k \/
         exists r', parent s' !! k = Some r' /\ repr s k r' /\
                    get (parent s) k <> k) /\
      (forall k r', repr s' k r' <-> repr s k r').
Proof.
  intros H Hx Hy Hrx Hry.
  destruct (reachable_inv n s us H) as [[B ([h Hr] & Hb & Ht)] Hw].
  assert (Hnum : forall i, Num i <> NaN) by discriminate.
  exists (S B). intros fuel Hfuel.
  destruct (union_cases s h B fuel (Num x) (Num y) Hr (Hnum x) (Hnum y))
    as (s2 & rx' & ry' & Hc & Hrx' & Hry' & Hcases); [lia|].
  rewrite (repr_det _ _ _ Hrx' _ Hrx) in *.
  rewrite (repr_det _ _ _ Hry' _ Hry) in *.
  destruct Hcases as [[_ ->]|[Hne _]]; [|contradiction].
  exists s2. split; [reflexivity|]. split; [apply Hc|].
  split; [apply Hc|]. intros k r'. split.
  - eapply compression_repr_inv; eassumption.
  - apply compression_repr, Hc.
Qed.

Lemma union_same_set_witness :
  exists N, forall fuel, (N <= fuel)%nat ->
    exists s',
      union fuel chain_state (Num 3) (Num 0) = Some (s', false) /\
      rank s' = rank chain_state /\
      (forall k,
         parent s' !! k = parent chain_state !! k \/
         exists r', parent s' !! k = Some r' /\ repr chain_state k r' /\
                    get (parent chain_state) k <> k) /\
      (forall k r', repr s' k r' <-> repr chain_state k r').
Proof.
  apply (union_same_set 4 chain_state [(0, 2); (2, 3); (0, 1)] 3 0 (Num 0)).
  - exact chain_state_reachable.
  - lia.
  - lia.
  - exact chain_state_root_3.
  - exact chain_state_root_0.
Defined.

(** * What the call does to its caller *)

Lemma sort_sorted_id l :
  StronglySorted le_weight l -> sort by_weight l = l.
Proof.
  induction 1 as [|x l Hl IH Hx]; simpl; [reflexivity|]. rewrite IH.
  destruct Hx as [|y l Hxy _]; simpl; [reflexivity|].
  unfold by_weight, le_weight in *.
  destruct (Z.leb_spec (weight x - weight y) 0); [reflexivity|lia].
Qed.

(** C2, as stated, fails: the sort is in place, so the caller's array
    comes back reordered. *)
Lemma kruskalMST_reorders_input :
  exists o,
    kruskalMST 2 2 [mkEdge 0 1 10; mkEdge 0 1 6] = Some o /\
    allEdges_after o = [mkEdge 0 1 6; mkEdge 0 1 10] /\
    allEdges_after o <> [mkEdge 0 1 10; mkEdge 0 1 6].
Proof.
  eexists. split; [reflexivity|]. split; [reflexivity|]. discriminate.
Qed.

(** C2, amended.  The call returns an outcome that its two arguments
    determine, and its one effect on the caller is to leave [allEdges]
    sorted: the array holds the same edges in order of non-decreasing
    weight, and is unchanged when it was in that order already. *)
Theorem kruskalMST_sorts_in_place V allEdges :
  exists o,
    (forall fuel, (length allEdges + 2 <= fuel)%nat ->
       kruskalMST fuel V allEdges = Some o) /\
    allEdges_after o = sort by_weight allEdges /\
    Permutation allEdges (allEdges_after o) /\
    StronglySorted le_weight (allEdges_after o) /\
    (StronglySorted le_weight allEdges -> allEdges_after o = allEdges).
Proof.
  destruct (kruskalMST_returns V allEdges) as (o & Ho & Ha & _).
  exists o. split; [exact Ho|]. split; [exact Ha|]. rewrite Ha.
  split; [apply sort_perm|]. split; [apply sort_sorted|].
  apply sort_sorted_id.
Qed.

Lemma kruskalMST_sorts_in_place_witness :
  exists o,
    (forall fuel, (length scenario1 + 2 <= fuel)%nat ->
       kruskalMST fuel 4 scenario1 = Some o) /\
    allEdges_after o = sort by_weight scenario1 /\
    Permutation scenario1 (allEdges_after o) /\
    StronglySorted le_weight (allEdges_after o) /\
    (StronglySorted le_weight scenario1 -> allEdges_after o = scenario1).
Proof. apply (kruskalMST_sorts_in_place 4 scenario1). Defined.

(** * Indices out of range *)

(** C9, as stated, fails: an edge to vertex 5 of a graph with two
    vertices raises nothing; the call completes normally and even selects
    the edge. *)
Lemma kruskalMST_accepts_out_of_range :
  exists o,
    kruskalMST 2 2 [mkEdge 0 5 1] = Some o /\
    completed o = Normal (mkResult [mkEdge 0 5 1] (Fin 1)) /\
    completed o <> Throw IndexOutOfBounds.
Proof.
  eexists. split; [reflexivity|]. split; [reflexivity|]. discriminate.
Qed.

(** C9, amended.  No index is checked and no IndexOutOfBounds error is
    raised: for a non-negative vertex count the call completes normally
    whatever the indices of the edges are (a negative count makes the
    constructor throw a RangeError), and [find] with an index outside
    [0 .. n-1] on a new structure stores [undefined] at that index and
    returns [undefined]. *)
Theorem kruskalMST_never_checks_indices V allEdges :
  (exists o,
     (forall fuel, (length allEdges + 2 <= fuel)%nat ->
        kruskalMST fuel V allEdges = Some o) /\
     (0 <= V -> exists r, completed o = Normal r) /\
     (V < 0 -> completed o = Throw RangeError)) /\
  (forall i fuel,
     0 <= V -> ~ 0 <= i < V -> (2 <= fuel)%nat ->
     constructor V = Normal (fresh V) /\
     find fuel (fresh V) (Num i) =
     Some (set_parent (fresh V) (Num i) Undefined, Undefined)).
Proof.
  split.
  - destruct (kruskalMST_returns V allEdges) as (o & Ho & _ & Hn & Ht).
    exists o. auto.
  - intros i fuel HV Hi Hfuel. split; [apply constructor_normal, HV|].
    destruct fuel as [|[|f]]; try lia.
    assert (Hg : get (parent (fresh V)) (Num i) = Undefined).
    { unfold get. simpl. rewrite array_init_out by exact Hi. reflexivity. }
    assert (Hu : get (parent (fresh V)) Undefined = Undefined).
    { simpl. rewrite get_array_init. reflexivity. }
    cbn [find]. rewrite Hg, Hu. cbn [strict_eq].
    unfold set_parent at 2. cbn [parent]. rewrite get_set_eq.
    reflexivity.
Qed.

Lemma kruskalMST_never_checks_indices_witness :
  constructor 2 = Normal (fresh 2) /\
  find 2 (fresh 2) (Num 5) =
  Some (set_parent (fresh 2) (Num 5) Undefined, Undefined).
Proof.
  apply (proj2 (kruskalMST_never_checks_indices 2 []) 5 2%nat); lia.
Defined.

(** * Further properties of [kruskalMST] *)

(** X1.  The edges returned on a valid graph form a spanning forest of it: they
    are edges of the graph, none of them closes a cycle, and they connect
    whatever the graph connects. *)
Theorem kruskalMST_spanning_forest V allEdges :
  0 <= V -> Forall (in_range V) allEdges ->
  exists r,
    (forall fuel, (length allEdges + 2 <= fuel)%nat ->
       kruskalMST fuel V allEdges =
       Some (mkOutcome (sort by_weight allEdges) (Normal r))) /\
    spanning_forest allEdges (mst r).
Proof.
  intros HV Hr.
  pose proof (sort_perm by_weight allEdges) as HP.
  destruct (greedy_minimum V (sort by_weight allEdges)) as [Hsf _].
  { eapply Permutation_Forall; eassumption. }
  { apply sort_sorted. }
  eexists. split.
  - intros fuel Hfuel. apply kruskalMST_valid; assumption.
  - simpl. eapply spanning_forest_perm; [apply Permutation_sym, HP|exact Hsf].
Qed.

Lemma kruskalMST_spanning_forest_witness :
  exists r,
    (forall fuel, (length scenario1 + 2 <= fuel)%nat ->
       kruskalMST fuel 4 scenario1 =
       Some (mkOutcome (sort by_weight scenario1) (Normal r))) /\
    spanning_forest scenario1 (mst r).
Proof.
  apply (kruskalMST_spanning_forest 4 scenario1).
  - lia.
  - repeat constructor; simpl; lia.
Defined.

(** Components and the number of edges of a spanning forest. *)
Lemma roots_nonempty V F :
  1 <= V -> Forall (in_range V) F -> (1 <= length (roots V F))%nat.
Proof.
  intros HV HF.
  assert (H : In (label F 0) (roots V F)).
  { apply roots_In. split; [apply label_range; [exact HF|lia]|].
    apply label_idem. }
  destruct (roots V F); [destruct H|simpl; lia].
Qed.

Lemma roots_connected V F :
  Forall (in_range V) F ->
  (forall u v, 0 <= u < V -> 0 <= v < V -> conn F u v) ->
  (length (roots V F) <= 1)%nat.
Proof.
  intros HF Hc.
  assert (Hall : forall a b, In a (roots V F) -> In b (roots V F) -> a = b).
  { intros a b Ha Hb. apply roots_In in Ha, Hb.
    destruct Ha as [Ha Ea], Hb as [Hb Eb].
    rewrite <- Ea, <- Eb. apply label_conn, Hc; assumption. }
  pose proof (roots_NoDup V F) as Hnd.
  destruct (roots V F) as [|a [|b l]]; simpl; try lia.
  exfalso. inversion Hnd as [|? ? Hna _]; subst. apply Hna.
  left. apply Hall; simpl; auto.
Qed.

Lemma spanning_forest_size V G F :
  1 <= V -> Forall (in_range V) G -> spanning_forest G F ->
  Z.of_nat (length F) <= V - 1 /\
  (Z.of_nat (length F) = V - 1 <->
   forall u v, 0 <= u < V -> 0 <= v < V -> conn G u v).
Proof.
  intros HV HG (Hi & Hf & Hs).
  assert (HF : Forall (in_range V) F) by (eapply Forall_incl; eassumption).
  pose proof (proj1 (acyclic_count V F HF) (forest_acyclic F Hf)) as Hcnt.
  pose proof (roots_nonempty V F HV HF) as H1.
  split; [lia|]. split.
  - intros Hlen u v Hu Hv. apply (conn_incl F G Hi).
    apply (full_tree_connects V); try assumption.
    apply forest_acyclic, Hf.
  - intros Hc.
    assert (H2 : (length (roots V F) <= 1)%nat).
    { apply roots_connected; [exact HF|]. intros u v Hu Hv.
      apply Hs, Hc; assumption. }
    lia.
Qed.

(** X2.  On a valid graph with at least one vertex the call selects at most
    [V - 1] edges, and exactly [V - 1] when, and only when, the graph is
    connected. *)
Theorem kruskalMST_edge_count V allEdges :
  1 <= V -> Forall (in_range V) allEdges ->
  exists r,
    (forall fuel, (length allEdges + 2 <= fuel)%nat ->
       kruskalMST fuel V allEdges =
       Some (mkOutcome (sort by_weight allEdges) (Normal r))) /\
    Z.of_nat (length (mst r)) <= V - 1 /\
    (Z.of_nat (length (mst r)) = V - 1 <->
     forall u v, 0 <= u < V -> 0 <= v < V -> conn allEdges u v).
Proof.
  intros HV Hr.
  pose proof (sort_perm by_weight allEdges) as HP.
  destruct (greedy_minimum V (sort by_weight allEdges)) as [Hsf _].
  { eapply Permutation_Forall; eassumption. }
  { apply sort_sorted. }
  eexists. split.
  - intros fuel Hfuel. apply kruskalMST_valid; [lia|assumption..].
  - simpl. apply (spanning_forest_size V allEdges); try assumption.
    eapply spanning_forest_perm; [apply Permutation_sym, HP|exact Hsf].
Qed.

Lemma kruskalMST_edge_count_witness :
  exists r,
    (forall fuel, (length scenario1 + 2 <= fuel)%nat ->
       kruskalMST fuel 4 scenario1 =
       Some (mkOutcome (sort by_weight scenario1) (Normal r))) /\
    Z.of_nat (length (mst r)) <= 4 - 1 /\
    (Z.of_nat (length (mst r)) = 4 - 1 <->
     forall u v, 0 <= u < 4 -> 0 <= v < 4 -> conn scenario1 u v).
Proof.
  apply (kruskalMST_edge_count 4 scenario1).
  - lia.
  - repeat constructor; simpl; lia.
Defined.

(** Below every threshold Kruskal's selection has as many edges as a
    spanning forest can have. *)
Lemma greedy_counts V edges F t :
  Forall (in_range V) edges -> StronglySorted le_weight edges ->
  spanning_forest edges F ->
  (count_le t F <= count_le t (greedy V edges []))%nat.
Proof.
  intros Hr Hs (HFin & HFf & _).
  destruct (greedy_extends V edges []) as (X & HK & HX). simpl in HK.
  assert (HKr : Forall (in_range V) (greedy V edges [])).
  { rewrite HK. eapply Forall_incl; eassumption. }
  assert (HFr : Forall (in_range V) F) by (eapply Forall_incl; eassumption).
  unfold count_le. apply (forest_size_le V).
  - eapply Forall_incl; [apply incl_filter|exact HFr].
  - eapply Forall_incl; [apply incl_filter|exact HKr].
  - apply acyclic_filter, forest_acyclic, HFf.
  - intros e He. apply upto_In in He. destruct He as [He Ht].
    apply (greedy_spans V edges []); simpl; auto.
Qed.

(** Two sorted lists with the same counts below every threshold carry the
    same weights in the same order. *)
Lemma sorted_same_counts K :
  forall K',
    StronglySorted le_weight K -> StronglySorted le_weight K' ->
    (forall t, count_le t K = count_le t K') ->
    map weight K = map weight K'.
Proof.
  assert (Hhead : forall k (K1 : list Edge) k' K1',
            Forall (le_weight k') K1' ->
            (forall t, count_le t (k :: K1) = count_le t (k' :: K1')) ->
            weight k' <= weight k).
  { intros k K1 k' K1' Hk' Hcnt.
    destruct (Z.le_gt_cases (weight k') (weight k)) as [|Hgt]; [assumption|].
    specialize (Hcnt (weight k)). rewrite !count_le_cons in Hcnt.
    rewrite List.Forall_forall in Hk'. unfold le_weight in Hk'.
    rewrite (count_le_zero (weight k) K1') in Hcnt
      by (intros e He; specialize (Hk' e He); lia).
    destruct (Z.leb_spec (weight k) (weight k)); [|lia].
    destruct (Z.leb_spec (weight k') (weight k)); lia. }
  induction K as [|k K IH]; intros [|k' K'] HK HK' Hcnt.
  - reflexivity.
  - specialize (Hcnt (weight k')). rewrite count_le_cons in Hcnt.
    destruct (Z.leb_spec (weight k') (weight k')); [|lia].
    unfold count_le in Hcnt at 1. simpl in Hcnt. lia.
  - specialize (Hcnt (weight k)). rewrite count_le_cons in Hcnt.
    destruct (Z.leb_spec (weight k) (weight k)); [|lia].
    unfold count_le in Hcnt at 2. simpl in Hcnt. lia.
  - apply StronglySorted_inv in HK, HK'.
    destruct HK as [HK Hk], HK' as [HK' Hk'].
    assert (E : weight k = weight k').
    { apply Z.le_antisymm.
      - apply (Hhead k' K' k K Hk). intros t. symmetry. apply Hcnt.
      - apply (Hhead k K k' K' Hk' Hcnt). }
    simpl. rewrite E. f_equal. apply IH; try assumption.
    intros t. specialize (Hcnt t). rewrite !count_le_cons, E in Hcnt. lia.
Qed.

(** X3.  The cost does not depend on the order in which the edges of a valid
    graph are given. *)
Theorem kruskalMST_cost_order_independent V allEdges allEdges' :
  0 <= V -> Forall (in_range V) allEdges ->
  Permutation allEdges allEdges' ->
  exists r r',
    (forall fuel, (length allEdges + 2 <= fuel)%nat ->
       kruskalMST fuel V allEdges =
       Some (mkOutcome (sort by_weight allEdges) (Normal r)) /\
       kruskalMST fuel V allEdges' =
       Some (mkOutcome (sort by_weight allEdges') (Normal r'))) /\
    cost r = cost r'.
Proof.
  intros HV Hr HP.
  assert (Hr' : Forall (in_range V) allEdges')
    by (eapply Permutation_Forall; eassumption).
  pose proof (sort_perm by_weight allEdges) as HP1.
  pose proof (sort_perm by_weight allEdges') as HP2.
  assert (Hrs : Forall (in_range V) (sort by_weight allEdges))
    by (eapply Permutation_Forall; eassumption).
  assert (Hrs' : Forall (in_range V) (sort by_weight allEdges'))
    by (eapply Permutation_Forall; eassumption).
  destruct (greedy_minimum V (sort by_weight allEdges) Hrs) as [Hsf _];
    [apply sort_sorted|].
  destruct (greedy_minimum V (sort by_weight allEdges') Hrs') as [Hsf' _];
    [apply sort_sorted|].
  assert (HPs : Permutation (sort by_weight allEdges)
                            (sort by_weight allEdges')).
  { eapply perm_trans; [apply Permutation_sym, HP1|].
    eapply perm_trans; [exact HP|exact HP2]. }
  eexists _, _. split.
  - intros fuel Hfuel. split; apply kruskalMST_valid; try assumption.
    rewrite <- (Permutation_length HP). exact Hfuel.
  - simpl. apply js_sum_map, sorted_same_counts.
    + apply (greedy_sorted V _ []), sort_sorted.
    + apply (greedy_sorted V _ []), sort_sorted.
    + intros t. apply Nat.le_antisymm.
      * apply greedy_counts; [exact Hrs'|apply sort_sorted|].
        eapply spanning_forest_perm; [exact HPs|exact Hsf].
      * apply greedy_counts; [exact Hrs|apply sort_sorted|].
        eapply spanning_forest_perm; [apply Permutation_sym, HPs|exact Hsf'].
Qed.

Lemma kruskalMST_cost_order_independent_witness :
  exists r r',
    (forall fuel, (length scenario1 + 2 <= fuel)%nat ->
       kruskalMST fuel 4 scenario1 =
       Some (mkOutcome (sort by_weight scenario1) (Normal r)) /\
       kruskalMST fuel 4 (rev scenario1) =
       Some (mkOutcome (sort by_weight (rev scenario1)) (Normal r'))) /\
    cost r = cost r'.
Proof.
  apply (kruskalMST_cost_order_independent 4 scenario1 (rev scenario1)).
  - lia.
  - repeat constructor; simpl; lia.
  - apply Permutation_rev.
Defined.

(** X4.  A second call on the array that a first call has left sorted has the
    same outcome, and leaves the array as it is. *)
Theorem kruskalMST_again fuel V allEdges o :
  kruskalMST fuel V allEdges = Some o ->
  kruskalMST fuel V (allEdges_after o) = Some o.
Proof.
  unfold kruskalMST. intros H.
  assert (Ha : allEdges_after o = sort by_weight allEdges).
  { destruct (constructor V); [|injection H as <-; reflexivity].
    destruct (kruskal_loop fuel V _ _ [] (Fin 0)); [|discriminate].
    injection H as <-. reflexivity. }
  rewrite Ha, (sort_sorted_id _ (sort_sorted allEdges)). exact H.
Qed.

Lemma kruskalMST_again_witness :
  kruskalMST 2 4
    [mkEdge 2 3 4; mkEdge 0 3 5; mkEdge 0 2 6; mkEdge 0 1 10; mkEdge 1 3 15] =
  Some (mkOutcome
          [mkEdge 2 3 4; mkEdge 0 3 5; mkEdge 0 2 6; mkEdge 0 1 10;
           mkEdge 1 3 15]
          (Normal (mkResult [mkEdge 2 3 4; mkEdge 0 3 5; mkEdge 0 1 10]
                            (Fin 19)))).
Proof.
  apply (kruskalMST_again 2 4 scenario1
           (mkOutcome
              [mkEdge 2 3 4; mkEdge 0 3 5; mkEdge 0 2 6; mkEdge 0 1 10;
               mkEdge 1 3 15]
              (Normal (mkResult [mkEdge 2 3 4; mkEdge 0 3 5; mkEdge 0 1 10]
                                (Fin 19))))).
  reflexivity.
Defined.

(** * Whatever the indices are *)

Lemma union_ranked s h B fuel x y s' b :
  ranked s h B -> x <> NaN -> y <> NaN ->
  union fuel s x y = Some (s', b) ->
  (exists h', ranked s' h' (S B)) /\ (x = y -> b = false).
Proof.
  intros Hr Hx Hy Hu.
  apply (fun H => union_mono _ _ _ _ _ H (fuel + S B)%nat) in Hu; [|lia].
  split.
  - destruct (union_total s h B (fuel + S B) x y Hr Hx Hy)
      as (s1 & b1 & h' & Hu1 & Hr1); [lia|].
    rewrite Hu in Hu1. injection Hu1 as <- <-. eauto.
  - intros <-.
    destruct (union_cases s h B (fuel + S B) x x Hr Hx Hx)
      as (s2 & rx & ry & _ & Hrx & Hry & Hcases); [lia|].
    destruct Hcases as [[_ Hu1]|[Hne _]].
    + rewrite Hu in Hu1. injection Hu1 as _ ->. reflexivity.
    + destruct Hne. eapply repr_det; eassumption.
Qed.

Lemma kruskal_loop_no_self_loop fuel V edges :
  forall dsu acc c h B r,
    ranked dsu h B ->
    kruskal_loop fuel V edges dsu acc c = Some r ->
    (forall e, In e acc -> source e <> destination e) ->
    forall e, In e (mst r) -> source e <> destination e.
Proof.
  induction edges as [|e0 rest IH]; intros dsu acc c h B r Hr H Hacc;
    simpl in H.
  { injection H as <-. exact Hacc. }
  destruct (Z.of_nat (length acc) =? V - 1).
  { injection H as <-. exact Hacc. }
  destruct (union fuel dsu (Num (source e0)) (Num (destination e0)))
    as [[dsu' b]|] eqn:Hu; [|discriminate].
  assert (Hnum : forall i, Num i <> NaN) by discriminate.
  destruct (union_ranked dsu h B fuel _ _ dsu' b Hr (Hnum _) (Hnum _) Hu)
    as [[h' Hr'] Hself].
  destruct b.
  - apply (IH _ _ _ h' (S B) r Hr' H).
    intros e He. apply in_app_or in He. destruct He as [He|[<-|[]]].
    + apply Hacc, He.
    + intros E. rewrite E in Hself. discriminate Hself. reflexivity.
  - apply (IH _ _ _ h' (S B) r Hr' H Hacc).
Qed.

(** X5.  No self-loop is ever selected, whatever the vertex count and the
    indices of the edges are. *)
Theorem kruskalMST_no_self_loop V allEdges :
  (exists o, forall fuel, (length allEdges + 2 <= fuel)%nat ->
               kruskalMST fuel V allEdges = Some o) /\
  (forall fuel o r e,
     kruskalMST fuel V allEdges = Some o -> completed o = Normal r ->
     In e (mst r) -> source e <> destination e).
Proof.
  split.
  - destruct (kruskalMST_returns V allEdges) as (o & Ho & _). eauto.
  - unfold kruskalMST, constructor. intros fuel o r e H Hc He.
    destruct (V <? 0); [injection H as <-; discriminate Hc|].
    destruct (kruskal_loop fuel V _ _ [] (Fin 0)) as [r'|] eqn:Hl;
      [|discriminate].
    injection H as <-. simpl in Hc. injection Hc as ->.
    revert e He. eapply kruskal_loop_no_self_loop;
      [apply initial_ranked|exact Hl|intros e []].
Qed.

Lemma kruskalMST_no_self_loop_witness :
  In (mkEdge 0 1 2) [mkEdge 0 1 2] /\
  source (mkEdge 0 1 2) <> destination (mkEdge 0 1 2).
Proof.
  split; [left; reflexivity|].
  apply (proj2 (kruskalMST_no_self_loop 2 [mkEdge 1 1 1; mkEdge 0 1 2])
           2%nat
           (mkOutcome [mkEdge 1 1 1; mkEdge 0 1 2]
              (Normal (mkResult [mkEdge 0 1 2] (Fin 2))))
           (mkResult [mkEdge 0 1 2] (Fin 2)) (mkEdge 0 1 2));
    [reflexivity|reflexivity|left; reflexivity].
Defined.

Lemma kruskal_loop_length fuel V edges :
  forall dsu acc c r,
    kruskal_loop fuel V edges dsu acc c = Some r ->
    Z.of_nat (length acc) <= V - 1 ->
    Z.of_nat (length (mst r)) <= V - 1.
Proof.
  induction edges as [|e rest IH]; intros dsu acc c r H Hacc; simpl in H.
  { injection H as <-. exact Hacc. }
  destruct (Z.eqb_spec (Z.of_nat (length acc)) (V - 1)) as [_|Hne].
  { injection H as <-. exact Hacc. }
  destruct (union fuel dsu (Num (source e)) (Num (destination e)))
    as [[dsu' b]|]; [|discriminate].
  destruct b; apply IH in H; try assumption.
  rewrite length_app. simpl. lia.
Qed.

(** X6.  At most [V - 1] edges are selected, and none without vertices,
    whatever the indices of the edges are. *)
Theorem kruskalMST_at_most V allEdges :
  (exists o, forall fuel, (length allEdges + 2 <= fuel)%nat ->
               kruskalMST fuel V allEdges = Some o) /\
  (forall fuel o r,
     kruskalMST fuel V allEdges = Some o -> completed o = Normal r ->
     Z.of_nat (length (mst r)) <= Z.max (V - 1) 0).
Proof.
  split.
  - destruct (kruskalMST_returns V allEdges) as (o & Ho & _). eauto.
  - unfold kruskalMST, constructor. intros fuel o r H Hc.
    destruct (Z.ltb_spec V 0) as [|HV]; [injection H as <-; discriminate Hc|].
    destruct (kruskal_loop fuel V _ _ [] (Fin 0)) as [r'|] eqn:Hl;
      [|discriminate].
    injection H as <-. simpl in Hc. injection Hc as ->.
    destruct (Z.eq_dec V 0) as [->|Hpos].
    + apply (fun H => kruskal_loop_mono _ _ _ _ _ _ _ H (fuel + 2)%nat)
        in Hl; [|lia].
      rewrite kruskal_loop_no_vertex in Hl; [|lia|].
      * injection Hl as <-. simpl. lia.
      * intros k. simpl. rewrite get_array_init.
        destruct k as [i| |]; try reflexivity.
        destruct (Z.leb_spec 0 i); [|reflexivity].
        destruct (Z.ltb_spec i 0); [lia|reflexivity].
    + apply kruskal_loop_length in Hl; simpl; lia.
Qed.

Lemma kruskalMST_at_most_witness :
  Z.of_nat (length [mkEdge 0 5 1]) <= Z.max (2 - 1) 0.
Proof.
  apply (proj2 (kruskalMST_at_most 2 [mkEdge 0 5 1; mkEdge 1 7 2]) 2%nat
           (mkOutcome [mkEdge 0 5 1; mkEdge 1 7 2]
              (Normal (mkResult [mkEdge 0 5 1] (Fin 1))))
           (mkResult [mkEdge 0 5 1] (Fin 1))); reflexivity.
Defined.

(** * Path compression, seen from the caller *)

Lemma strict_eq_eq a k : strict_eq a k = true -> a = k.
Proof.
  destruct a, k; simpl; try discriminate; [|reflexivity].
  intros H. apply Z.eqb_eq in H. congruence.
Qed.

Lemma find_flattens fuel s :
  forall i s' r,
    find fuel s i = Some (s', r) ->
    forall k, on_path s i k -> get (parent s') k = r.
Proof.
  induction fuel as [|fuel IH]; intros i s' r H k Hk; [discriminate|].
  simpl in H. destruct (strict_eq (get (parent s) i) i) eqn:Heq.
  - injection H as <- <-. apply strict_eq_eq in Heq.
    destruct Hk as [|i k Hne _]; [exact Heq|contradiction].
  - destruct (find fuel s (get (parent s) i)) as [[s1 r0]|] eqn:Hf;
      [|discriminate].
    injection H as <- <-. simpl. rewrite get_set_eq.
    destruct (decide (i = k)) as [<-|Hik]; [apply get_set_eq|].
    rewrite get_set_ne by exact Hik.
    destruct Hk as [|i k _ Hk]; [contradiction|].
    eapply IH; eassumption.
Qed.

Lemma find_frame fuel s :
  forall i s' r,
    find fuel s i = Some (s', r) ->
    rank s' = rank s /\
    forall k, ~ on_path s i k -> parent s' !! k = parent s !! k.
Proof.
  induction fuel as [|fuel IH]; intros i s' r H; [discriminate|].
  simpl in H. destruct (strict_eq (get (parent s) i) i) eqn:Heq.
  - injection H as <- <-. auto.
  - destruct (find fuel s (get (parent s) i)) as [[s1 r0]|] eqn:Hf;
      [|discriminate].
    injection H as <- <-. destruct (IH _ _ _ Hf) as [Hrk Hfr].
    split; [exact Hrk|]. intros k Hk. simpl. unfold set.
    rewrite lookup_insert_ne by (intros <-; apply Hk, path_here).
    apply Hfr. intros Hp. apply Hk.
    destruct (decide (get (parent s) i = i)) as [E|Hne].
    + rewrite E in Hp. exact Hp.
    + apply path_next; assumption.
Qed.

(** X7.  On a structure reached by calls in range, [find(i)] returns the
    root of [i], and afterwards every vertex that the call visited, [i]
    and the root included, has this root as its parent; the entries of
    all other vertices and the ranks are as before. *)
Theorem find_flattens_path n s us i :
  reachable n s us -> 0 <= i < n ->
  exists N, forall fuel, (N <= fuel)%nat ->
    exists s' r,
      find fuel s (Num i) = Some (s', r) /\
      repr s (Num i) r /\
      (forall k, on_path s (Num i) k -> get (parent s') k = r) /\
      (forall k, ~ on_path s (Num i) k -> parent s' !! k = parent s !! k) /\
      rank s' = rank s.
Proof.
  intros H Hi. destruct (reachable_inv n s us H) as [[B ([h Hr] & _)] _].
  exists (S B). intros fuel Hfuel.
  destruct (find_spec s h B Hr fuel (Num i)) as (s' & r & Hf & Hrepr & _);
    [discriminate|lia|].
  exists s', r. split; [exact Hf|]. split; [exact Hrepr|].
  split; [eapply find_flattens, Hf|].
  destruct (find_frame fuel s _ _ _ Hf) as [Hrk Hfr]. auto.
Qed.

Lemma find_flattens_path_witness :
  exists N, forall fuel, (N <= fuel)%nat ->
    exists s' r,
      find fuel chain_state (Num 3) = Some (s', r) /\
      repr chain_state (Num 3) r /\
      (forall k, on_path chain_state (Num 3) k -> get (parent s') k = r) /\
      (forall k, ~ on_path chain_state (Num 3) k ->
                 parent s' !! k = parent chain_state !! k) /\
      rank s' = rank chain_state.
Proof.
  apply (find_flattens_path 4 chain_state [(0, 2); (2, 3); (0, 1)] 3).
  - exact chain_state_reachable.
  - lia.
Defined.

Lemma set_parent_same s k v :
  parent s !! k = Some v -> set_parent s k v = s.
Proof.
  intros H. destruct s as [pa rk]. unfold set_parent, set. simpl in *.
  f_equal. apply insert_id, H.
Qed.

Lemma find_root fuel s r :
  r <> NaN -> get (parent s) r = r -> find (S fuel) s r = Some (s, r).
Proof.
  intros Hr Hroot. simpl. rewrite Hroot.
  rewrite (proj2 (strict_eq_true r r Hr) eq_refl). reflexivity.
Qed.

Lemma find_child fuel s k r :
  k <> NaN -> r <> NaN -> r <> k ->
  parent s !! k = Some r -> get (parent s) r = r ->
  find (S (S fuel)) s k = Some (s, r).
Proof.
  intros Hk Hr Hne Hlook Hroot. cbn [find].
  rewrite (get_lookup _ _ _ Hlook).
  rewrite (proj2 (strict_eq_false r k Hk) Hne).
  rewrite Hroot, (proj2 (strict_eq_true r r Hr) eq_refl).
  rewrite (set_parent_same s k r Hlook), (get_lookup _ _ _ Hlook).
  reflexivity.
Qed.

(** X8.  A second [find(i)] returns the same root and changes nothing. *)
Theorem find_again n s us fuel i s' r :
  reachable n s us -> 0 <= i < n ->
  find fuel s (Num i) = Some (s', r) ->
  forall fuel', (2 <= fuel')%nat -> find fuel' s' (Num i) = Some (s', r).
Proof.
  intros H Hi Hf fuel' Hfuel'.
  destruct (reachable_inv n s us H) as [[B ([h Hr] & _)] _].
  assert (Hnum : Num i <> NaN) by discriminate.
  destruct (find_repr s h B fuel (Num i) s' r Hr Hnum Hf) as [Hrepr Hc].
  assert (Hroot : get (parent s') r = r).
  { eapply compression_root; [exact Hc|]. eapply repr_is_root, Hrepr. }
  assert (Hnan : r <> NaN) by (eapply repr_not_nan; eassumption).
  destruct fuel' as [|[|f]]; try lia.
  destruct fuel as [|fuel]; [discriminate|]. simpl in Hf.
  destruct (strict_eq (get (parent s) (Num i)) (Num i)) eqn:Heq.
  - injection Hf as <- <-. apply find_root; assumption.
  - destruct (find fuel s (get (parent s) (Num i))) as [[s1 r0]|];
      [|discriminate].
    apply strict_eq_false in Heq; [|exact Hnum].
    assert (Hne : r <> Num i).
    { intros ->. apply Heq. eapply repr_is_root, Hrepr. }
    apply find_child; try assumption.
    injection Hf as <- <-. simpl. rewrite get_set_eq.
    unfold set. apply lookup_insert_eq.
Qed.

Lemma find_again_witness :
  find 2 (set_parent chain_state (Num 3) (Num 0)) (Num 3) =
  Some (set_parent chain_state (Num 3) (Num 0), Num 0).
Proof.
  apply (find_again 4 chain_state [(0, 2); (2, 3); (0, 1)] 3%nat 3).
  - exact chain_state_reachable.
  - lia.
  - vm_compute. reflexivity.
  - lia.
Defined.

(** * Union by rank: ranks and the number of sets *)

Lemma is_root_true s i :
  is_root s i = true <-> get (parent s) (Num i) = Num i.
Proof. unfold is_root. apply strict_eq_true. discriminate. Qed.

Lemma is_root_false s i :
  is_root s i = false <-> get (parent s) (Num i) <> Num i.
Proof. unfold is_root. apply strict_eq_false. discriminate. Qed.

Lemma compression_is_root s s' i :
  compression s s' -> is_root s' i = is_root s i.
Proof.
  intros Hc. destruct (is_root s i) eqn:Hi.
  - apply is_root_true in Hi. apply is_root_true.
    eapply compression_root; eassumption.
  - apply is_root_false in Hi. apply is_root_false.
    destruct Hc as [_ Hc]. destruct (Hc (Num i)) as [E|(r & E & Hr & _)].
    + unfold get in *. rewrite E. exact Hi.
    + rewrite (get_lookup _ _ _ E). intros ->. apply Hi.
      eapply repr_is_root, Hr.
Qed.

Lemma compression_nroots n s s' :
  compression s s' -> nroots n s' = nroots n s.
Proof.
  intros Hc. unfold nroots. f_equal. apply filter_ext.
  intros i. apply compression_is_root, Hc.
Qed.

Lemma rank_inv_in_bounds n s : rank_inv n s -> in_bounds n s.
Proof.
  intros H i Hi.
  destruct (H i Hi) as (p & ri & rp & Hp & Hpr & Hri & _). eauto.
Qed.

(** Ranks grow along the path to the root. *)
Lemma rank_path n s k r :
  rank_inv n s -> repr s k r ->
  forall i ri, k = Num i -> 0 <= i < n -> rank s !! Num i = Some (Num ri) ->
    exists q rq, r = Num q /\ 0 <= q < n /\
                 rank s !! Num q = Some (Num rq) /\ (i = q \/ ri < rq).
Proof.
  intros Hinv H. induction H as [k _|k r Hne _ IH]; intros i ri -> Hi Hri.
  - exists i, ri. auto.
  - destruct (Hinv i Hi)
      as (p & ri' & rp & Hp & Hpr & Hri' & Hrp & _ & Hlt & _).
    rewrite Hri in Hri'. injection Hri' as <-.
    rewrite (get_lookup _ _ _ Hp) in Hne, IH.
    destruct Hlt as [->|Hlt]; [contradiction|].
    destruct (IH p rp eq_refl Hpr Hrp) as (q & rq & -> & Hq & Hrq & Hle).
    exists q, rq. split; [reflexivity|]. split; [exact Hq|].
    split; [exact Hrq|]. right. destruct Hle as [<-|Hle].
    + rewrite Hrp in Hrq. injection Hrq as <-. exact Hlt.
    + lia.
Qed.

Lemma compression_rank_inv n s s' :
  compression s s' -> rank_inv n s -> rank_inv n s'.
Proof.
  intros Hc Hinv i Hi. pose proof Hc as [Hrk Hc'].
  destruct (Hinv i Hi) as (p & ri & rp & Hp & Hpr & Hri & Hrp & H0 & Hlt & Hb).
  rewrite (compression_nroots n s s' Hc), Hrk.
  destruct (Hc' (Num i)) as [E|(r & E & Hr & Hne)].
  - exists p, ri, rp. rewrite E. auto 10.
  - destruct (rank_path n s _ _ Hinv Hr i ri eq_refl Hi Hri)
      as (q & rq & -> & Hq & Hrq & Hle).
    exists q, ri, rq. repeat (split; [assumption|]). split; [|exact Hb].
    destruct Hle as [<-|Hle]; [|right; exact Hle].
    exfalso. apply Hne. eapply repr_is_root, Hr.
Qed.

(** Linking the root [c] below the root [p], whose rank ends above that
    of [c], keeps the ranks in order and removes one set. *)
Lemma link_rank_inv n s s' c p a b b' :
  rank_inv n s -> 0 <= c < n -> 0 <= p < n -> c <> p ->
  get (parent s) (Num c) = Num c -> get (parent s) (Num p) = Num p ->
  rank s !! Num c = Some (Num a) -> rank s !! Num p = Some (Num b) ->
  parent s' = set (parent s) (Num c) (Num p) ->
  rank s' !! Num p = Some (Num b') ->
  (forall k, k <> Num p -> rank s' !! k = rank s !! k) ->
  a < b' -> b <= b' <= b + 1 ->
  rank_inv n s' /\ S (nroots n s') = nroots n s.
Proof.
  intros Hinv Hc Hp Hne Hrc Hrp Ha Hb Hpar Hb' Hrk Hab Hbb.
  assert (Hcount : S (nroots n s') = nroots n s).
  { unfold nroots. apply filter_remove_one with (a := c).
    - apply Zseq_NoDup.
    - apply Zseq_In, Hc.
    - apply is_root_true, Hrc.
    - intros i _. unfold is_root. rewrite Hpar.
      destruct (Z.eqb_spec i c) as [->|Hic].
      + rewrite get_set_eq, andb_false_r. simpl.
        apply Z.eqb_neq. congruence.
      + rewrite get_set_ne by congruence. rewrite andb_true_r.
        reflexivity. }
  split; [|exact Hcount]. intros i Hi.
  destruct (Hinv i Hi)
    as (q & ri & rq & Hq & Hqr & Hri & Hrq & H0 & Hlt & Hbnd).
  assert (Hrank : forall j rj, rank s !! Num j = Some (Num rj) ->
            exists rj', rank s' !! Num j = Some (Num rj') /\
                        rj <= rj' <= rj + 1 /\ (j <> p -> rj' = rj)).
  { intros j rj Hj. destruct (Z.eq_dec j p) as [->|Hjp].
    - rewrite Hb in Hj. injection Hj as <-. exists b'. tauto.
    - exists rj. rewrite Hrk by congruence. split; [exact Hj|]. lia. }
  destruct (Z.eq_dec i c) as [->|Hic].
  - rewrite Ha in Hri. injection Hri as <-.
    exists p, a, b'. rewrite Hpar. unfold set.
    rewrite lookup_insert_eq, Hrk, Ha by congruence.
    repeat (split; [auto; lia|]). lia.
  - destruct (Hrank i ri Hri) as (ri' & Hri' & Hle & Hsame).
    destruct (Hrank q rq Hrq) as (rq' & Hrq' & Hleq & _).
    exists q, ri', rq'. rewrite Hpar. unfold set.
    rewrite lookup_insert_ne by congruence.
    repeat (split; [auto; lia|]). split; [|lia].
    destruct Hlt as [->|Hlt]; [left; reflexivity|right].
    assert (Hip : i <> p).
    { intros ->. rewrite (get_lookup _ _ _ Hq) in Hrp.
      injection Hrp as ->. rewrite Hri in Hrq. injection Hrq as ->. lia. }
    rewrite (Hsame Hip). lia.
Qed.

Lemma union_rank_step n s h B fuel x y s' b :
  ranked s h B -> rank_inv n s -> 0 <= x < n -> 0 <= y < n ->
  union fuel s (Num x) (Num y) = Some (s', b) ->
  rank_inv n s' /\
  nroots n s = (if b then S (nroots n s') else nroots n s').
Proof.
  intros Hr Hinv Hx Hy Hu.
  assert (Hnum : forall i, Num i <> NaN) by discriminate.
  apply (fun H => union_mono _ _ _ _ _ H (fuel + S B)%nat) in Hu; [|lia].
  destruct (union_cases s h B (fuel + S B) (Num x) (Num y) Hr
              (Hnum x) (Hnum y))
    as (s2 & rx & ry & Hc & Hrx & Hry & Hcases); [lia|].
  pose proof (rank_inv_in_bounds n s Hinv) as Hb.
  destruct (repr_in_bounds n s _ _ Hb Hrx x eq_refl Hx) as (qx & -> & Hqx).
  destruct (repr_in_bounds n s _ _ Hb Hry y eq_refl Hy) as (qy & -> & Hqy).
  pose proof (compression_rank_inv n s s2 Hc Hinv) as Hinv2.
  pose proof (compression_nroots n s s2 Hc) as Hn2.
  assert (Hrk : rank s2 = rank s) by apply Hc.
  assert (Hrootx : get (parent s2) (Num qx) = Num qx).
  { eapply compression_root; [exact Hc|]. eapply repr_is_root, Hrx. }
  assert (Hrooty : get (parent s2) (Num qy) = Num qy).
  { eapply compression_root; [exact Hc|]. eapply repr_is_root, Hry. }
  destruct (Hinv2 qx Hqx) as (_ & a & _ & _ & _ & Ha & _).
  destruct (Hinv2 qy Hqy) as (_ & c & _ & _ & _ & Hc' & _).
  assert (Ga : get (rank s) (Num qx) = Num a)
    by (rewrite <- Hrk; apply get_lookup, Ha).
  assert (Gc : get (rank s) (Num qy) = Num c)
    by (rewrite <- Hrk; apply get_lookup, Hc').
  rewrite Ga, Gc in Hcases. unfold js_lt in Hcases. simpl in Hcases.
  destruct Hcases
    as [[_ Hu']|[Hne [[Hgt Hu']|[(Hgt & Hlt & Hu')|(Hgt & Hlt & Hu')]]]];
    rewrite Hu in Hu'; injection Hu' as -> ->.
  - rewrite Hn2. auto.
  - apply Z.ltb_lt in Hgt. rewrite <- Hn2.
    destruct (link_rank_inv n s2 (set_parent s2 (Num qy) (Num qx))
                qy qx c a a) as [H1 H2]; auto; try congruence; lia.
  - apply Z.ltb_lt in Hlt. rewrite <- Hn2.
    destruct (link_rank_inv n s2 (set_parent s2 (Num qx) (Num qy))
                qx qy a c c) as [H1 H2]; auto; try congruence; lia.
  - apply Z.ltb_ge in Hgt, Hlt. rewrite <- Hn2.
    destruct (link_rank_inv n s2
                (set_rank (set_parent s2 (Num qy) (Num qx)) (Num qx)
                          (Num (a + 1)))
                qy qx c a (a + 1)) as [H1 H2]; auto; try congruence; try lia.
    + simpl. unfold set. apply lookup_insert_eq.
    + intros k Hk. simpl. unfold set. apply lookup_insert_ne. congruence.
Qed.

Lemma nroots_fresh n : nroots n (fresh n) = Z.to_nat n.
Proof.
  unfold nroots. rewrite <- Zseq_length. f_equal.
  apply forallb_filter_id, forallb_forall. intros i Hi.
  apply Zseq_In in Hi. apply is_root_true. simpl.
  apply get_lookup, array_init_in, Hi.
Qed.

Lemma fresh_rank_inv n : 0 <= n -> rank_inv n (fresh n).
Proof.
  intros Hn i Hi. exists i, 0, 0. rewrite nroots_fresh. simpl.
  rewrite !array_init_in by exact Hi. repeat (split; [auto; lia|]). lia.
Qed.

Lemma reachable_rank_inv n s us : reachable n s us -> rank_inv n s.
Proof.
  induction 1 as [s Hs|s us fuel i s' r Hreach IH Hi Hf
                 |s us fuel x y s' b Hreach IH Hx Hy Hu].
  - unfold constructor in Hs. destruct (Z.ltb_spec n 0); [discriminate|].
    injection Hs as <-. apply fresh_rank_inv. assumption.
  - destruct (reachable_inv n s us Hreach) as [[B ([h Hr] & _)] _].
    destruct (find_repr s h B fuel (Num i) s' r Hr) with (2 := Hf)
      as [_ Hc]; [discriminate|].
    eapply compression_rank_inv; eassumption.
  - destruct (reachable_inv n s us Hreach) as [[B ([h Hr] & _)] _].
    apply (union_rank_step n s h B fuel x y s' b Hr IH Hx Hy Hu).
Qed.

(** X9.  In every state reached by calls in range the ranks are natural
    numbers that grow strictly from a vertex to its parent, and no rank
    exceeds [n] minus the number of sets. *)
Theorem reachable_ranks n s us i :
  reachable n s us -> 0 <= i < n ->
  exists p ri rp,
    parent s !! Num i = Some (Num p) /\ 0 <= p < n /\
    rank s !! Num i = Some (Num ri) /\
    rank s !! Num p = Some (Num rp) /\
    0 <= ri /\ (p = i \/ ri < rp) /\
    ri + Z.of_nat (nroots n s) <= n.
Proof. intros H. apply (reachable_rank_inv n s us H). Qed.

Lemma reachable_ranks_witness :
  exists p ri rp,
    parent chain_state !! Num 3 = Some (Num p) /\ 0 <= p < 4 /\
    rank chain_state !! Num 3 = Some (Num ri) /\
    rank chain_state !! Num p = Some (Num rp) /\
    0 <= ri /\ (p = 3 \/ ri < rp) /\
    ri + Z.of_nat (nroots 4 chain_state) <= 4.
Proof.
  apply (reachable_ranks 4 chain_state [(0, 2); (2, 3); (0, 1)] 3).
  - exact chain_state_reachable.
  - lia.
Defined.

(** X10.  [find] keeps the number of sets; [union] takes one away when it
    returns [true] and none when it returns [false]. *)
Theorem union_counts_sets n s us :
  reachable n s us ->
  (forall fuel i s' r,
     0 <= i < n -> find fuel s (Num i) = Some (s', r) ->
     nroots n s' = nroots n s) /\
  (forall fuel x y s' b,
     0 <= x < n -> 0 <= y < n ->
     union fuel s (Num x) (Num y) = Some (s', b) ->
     nroots n s = (if b then S (nroots n s') else nroots n s')).
Proof.
  intros H. destruct (reachable_inv n s us H) as [[B ([h Hr] & _)] _].
  pose proof (reachable_rank_inv n s us H) as Hinv. split.
  - intros fuel i s' r Hi Hf.
    destruct (find_repr s h B fuel (Num i) s' r Hr) with (2 := Hf)
      as [_ Hc]; [discriminate|].
    apply compression_nroots, Hc.
  - intros fuel x y s' b Hx Hy Hu.
    apply (union_rank_step n s h B fuel x y s' b Hr Hinv Hx Hy Hu).
Qed.

Lemma two_pairs_reachable :
  reachable 4 (after_union (after_union (fresh 4) 0 1) 2 3) [(2, 3); (0, 1)].
Proof.
  apply (reach_union 4 (after_union (fresh 4) 0 1) _ 4 2 3 _ true); try lia.
  - apply (reach_union 4 (fresh 4) _ 4 0 1 _ true); try lia.
    + apply reach_new. reflexivity.
    + reflexivity.
  - reflexivity.
Qed.

Lemma union_counts_sets_witness :
  nroots 4 (after_union (after_union (fresh 4) 0 1) 2 3) =
  S (nroots 4 chain_state).
Proof.
  apply (proj2 (union_counts_sets 4
                  (after_union (after_union (fresh 4) 0 1) 2 3)
                  [(2, 3); (0, 1)] two_pairs_reachable)
           4%nat 0 2 chain_state true); try lia.
  reflexivity.
Defined.

(** * How deep [find] recurses *)

Lemma find_depth n s :
  rank_inv n s ->
  forall fuel i ri,
    0 <= i < n -> rank s !! Num i = Some (Num ri) ->
    (Z.to_nat (n - Z.of_nat (nroots n s) - ri) < fuel)%nat ->
    exists s' r, find fuel s (Num i) = Some (s', r).
Proof.
  intros Hinv. induction fuel as [|fuel IH]; intros i ri Hi Hri Hfuel; [lia|].
  destruct (Hinv i Hi)
    as (p & ri' & rp & Hp & Hpr & Hri' & Hrp & H0 & Hlt & Hb).
  rewrite Hri in Hri'. injection Hri' as <-.
  simpl. rewrite (get_lookup _ _ _ Hp). simpl.
  destruct (Z.eqb_spec p i) as [_|Hne]; [eauto|].
  destruct Hlt as [->|Hlt]; [contradiction|].
  destruct (Hinv p Hpr) as (_ & rp' & _ & _ & _ & Hrp' & _ & _ & _ & Hbp).
  rewrite Hrp in Hrp'. injection Hrp' as <-.
  destruct (IH p rp Hpr Hrp) as (s1 & r0 & ->); [lia|]. eauto.
Qed.

Lemma nroots_pos n s h B i :
  ranked s h B -> in_bounds n s -> 0 <= i < n -> (1 <= nroots n s)%nat.
Proof.
  intros Hr Hb Hi. destruct (repr_exists s h B (Num i) Hr) as [r Hrepr].
  destruct (repr_in_bounds n s _ _ Hb Hrepr i eq_refl Hi) as (q & -> & Hq).
  assert (Hin : In q (List.filter (is_root s) (Zseq n))).
  { apply filter_In. split; [apply Zseq_In, Hq|].
    apply is_root_true. eapply repr_is_root, Hrepr. }
  unfold nroots. destruct (List.filter (is_root s) (Zseq n));
    [destruct Hin|simpl; lia].
Qed.

Lemma reachable_find_returns n s us fuel i :
  reachable n s us -> 0 <= i < n -> (Z.to_nat n <= fuel)%nat ->
  exists s' r, find fuel s (Num i) = Some (s', r).
Proof.
  intros H Hi Hfuel.
  destruct (reachable_inv n s us H) as [[B ([h Hr] & Hb & _)] _].
  pose proof (reachable_rank_inv n s us H) as Hinv.
  pose proof (nroots_pos n s h B i Hr Hb Hi) as Hpos.
  destruct (Hinv i Hi) as (_ & ri & _ & _ & _ & Hri & _ & H0 & _).
  apply (find_depth n s Hinv fuel i ri Hi Hri). lia.
Qed.

Lemma reachable_union_returns n s us fuel x y :
  reachable n s us -> 0 <= x < n -> 0 <= y < n ->
  (Z.to_nat n <= fuel)%nat ->
  exists s' b, union fuel s (Num x) (Num y) = Some (s', b).
Proof.
  intros H Hx Hy Hfuel. unfold union.
  destruct (reachable_find_returns n s us fuel x H Hx Hfuel)
    as (s1 & rx & Hf1).
  rewrite Hf1.
  destruct (reachable_find_returns n s1 us fuel y) as (s2 & ry & ->);
    [exact (reach_find n s us fuel x s1 rx H Hx Hf1)|assumption..|].
  destruct (negb (strict_eq rx ry)); [|eauto].
  destruct (js_gt _ _); [eauto|]. destruct (js_lt _ _); eauto.
Qed.

(** X11.  On a structure reached by calls in range, over [n] elements, [find]
    needs no more than [n] nested calls, and so does [union]. *)
Theorem find_depth_bound n s us :
  reachable n s us ->
  forall fuel, (Z.to_nat n <= fuel)%nat ->
    (forall i, 0 <= i < n ->
       exists s' r, find fuel s (Num i) = Some (s', r)) /\
    (forall x y, 0 <= x < n -> 0 <= y < n ->
       exists s' b, union fuel s (Num x) (Num y) = Some (s', b)).
Proof.
  intros H fuel Hfuel. split.
  - intros i Hi. eapply reachable_find_returns; eassumption.
  - intros x y Hx Hy. eapply reachable_union_returns; eassumption.
Qed.

Lemma find_depth_bound_witness :
  (forall i, 0 <= i < 4 ->
     exists s' r, find 4 chain_state (Num i) = Some (s', r)) /\
  (forall x y, 0 <= x < 4 -> 0 <= y < 4 ->
     exists s' b, union 4 chain_state (Num x) (Num y) = Some (s', b)).
Proof.
  apply (find_depth_bound 4 chain_state [(0, 2); (2, 3); (0, 1)]).
  - exact chain_state_reachable.
  - simpl. lia.
Defined.

Lemma kruskal_loop_returns fuel V edges :
  forall s us acc c,
    reachable V s us -> Forall (in_range V) edges ->
    (Z.to_nat V <= fuel)%nat ->
    exists r, kruskal_loop fuel V edges s acc c = Some r.
Proof.
  induction edges as [|e rest IH]; intros s us acc c H He Hfuel; simpl;
    [eauto|].
  destruct (Z.of_nat (length acc) =? V - 1); [eauto|].
  inversion He as [|? ? [Hs Hd] Hrest]; subst.
  destruct (reachable_union_returns V s us fuel _ _ H Hs Hd Hfuel)
    as (s' & b & Hu).
  rewrite Hu.
  pose proof (reach_union V s us fuel _ _ s' b H Hs Hd Hu) as H'.
  destruct b; eapply IH; eassumption.
Qed.

(** X12.  On a valid graph the recursion of [find] inside the call is never
    deeper than the number of vertices: a budget of [V] gives the result
    that any larger budget gives. *)
Theorem kruskalMST_depth V allEdges :
  0 <= V -> Forall (in_range V) allEdges ->
  exists r,
    forall fuel, (Z.to_nat V <= fuel)%nat ->
      kruskalMST fuel V allEdges =
      Some (mkOutcome (sort by_weight allEdges) (Normal r)).
Proof.
  intros HV Hr. eexists. intros fuel Hfuel.
  pose proof (sort_perm by_weight allEdges) as HP.
  pose proof (kruskalMST_valid V allEdges (fuel + length allEdges + 2)
                HV Hr ltac:(lia)) as Hbig.
  unfold kruskalMST in *. rewrite (constructor_normal V HV) in *.
  destruct (kruskal_loop_returns fuel V (sort by_weight allEdges)
              _ [] [] (Fin 0) (reach_new V _ (constructor_normal V HV)))
    as [r Hl]; [eapply Permutation_Forall; eassumption|exact Hfuel|].
  rewrite Hl.
  rewrite (kruskal_loop_mono _ _ _ _ _ _ _ Hl
             (fuel + length allEdges + 2)%nat) in Hbig by lia.
  exact Hbig.
Qed.

Lemma kruskalMST_depth_witness :
  exists r,
    forall fuel, (Z.to_nat 4 <= fuel)%nat ->
      kruskalMST fuel 4 scenario1 =
      Some (mkOutcome (sort by_weight scenario1) (Normal r)).
Proof.
  apply (kruskalMST_depth 4 scenario1).
  - lia.
  - repeat constructor; simpl; lia.
Defined.

(** * The caller's checks *)

Lemma collect_edges_valid V es :
  Forall (in_range V) es ->
  forall i acc, collect_edges V (map edge_row es) i acc = inl (acc ++ es).
Proof.
  induction 1 as [|e es [Hs Hd] _ IH]; intros i acc; simpl.
  - rewrite app_nil_r. reflexivity.
  - destruct (Z.ltb_spec (source e) 0); [lia|].
    destruct (Z.geb_spec (source e) V); [lia|].
    destruct (Z.ltb_spec (destination e) 0); [lia|].
    destruct (Z.geb_spec (destination e) V); [lia|].
    simpl. rewrite IH, <- app_assoc. destruct e; reflexivity.
Qed.

Lemma collect_edges_invalid V row post :
  ~ valid_row V row ->
  forall i acc, collect_edges V (row :: post) i acc = inr (i + 1)%nat.
Proof.
  intros Hrow i acc. simpl.
  destruct row as [[s|] [d|] [w|]]; simpl; try reflexivity.
  destruct (Z.ltb_spec s 0); [reflexivity|].
  destruct (Z.geb_spec s V); [reflexivity|].
  destruct (Z.ltb_spec d 0); [reflexivity|].
  destruct (Z.geb_spec d V); [reflexivity|].
  exfalso. apply Hrow. exists (mkEdge s d w).
  split; [reflexivity|]. split; simpl; lia.
Qed.

Lemma valid_rows_edges V rows :
  Forall (valid_row V) rows ->
  exists es, rows = map edge_row es /\ Forall (in_range V) es.
Proof.
  induction 1 as [|row rows (e & -> & He) _ (es & -> & Hes)].
  - exists []. split; [reflexivity|constructor].
  - exists (e :: es). split; [reflexivity|constructor; assumption].
Qed.

Lemma collect_edges_app V es rest :
  Forall (in_range V) es ->
  forall i acc,
    collect_edges V (map edge_row es ++ rest) i acc =
    collect_edges V rest (i + length es) (acc ++ es).
Proof.
  induction 1 as [|e es [Hs Hd] _ IH]; intros i acc; simpl.
  - rewrite app_nil_r, Nat.add_0_r. reflexivity.
  - destruct (Z.ltb_spec (source e) 0); [lia|].
    destruct (Z.geb_spec (source e) V); [lia|].
    destruct (Z.ltb_spec (destination e) 0); [lia|].
    destruct (Z.geb_spec (destination e) V); [lia|].
    simpl. rewrite IH, <- app_assoc.
    replace (S i + length es)%nat with (i + S (length es))%nat by lia.
    destruct e; reflexivity.
Qed.

(** X13.  The first row that fails a check (a field that is not a number, an
    end point outside [0 .. V-1]) is reported by its number, counted from
    one; the rows after it are not looked at, [kruskalMST] is not called
    and nothing is displayed. *)
Theorem calculateAndDisplayMST_alert fuel V pre row post :
  Forall (valid_row V) pre -> ~ valid_row V row ->
  calculateAndDisplayMST fuel V (pre ++ row :: post) =
  Some (Normal (Alerted (S (length pre)))).
Proof.
  intros Hpre Hrow. destruct (valid_rows_edges V pre Hpre) as (es & -> & Hes).
  unfold calculateAndDisplayMST.
  rewrite (collect_edges_app V es _ Hes).
  rewrite (collect_edges_invalid V row post Hrow).
  rewrite length_map. simpl. do 3 f_equal. lia.
Qed.

Lemma calculateAndDisplayMST_alert_witness :
  calculateAndDisplayMST 0 2
    ([edge_row (mkEdge 0 1 3)] ++ mkRow (Some 0) (Some 2) (Some 1) ::
     [mkRow None None None]) =
  Some (Normal (Alerted (S (length [edge_row (mkEdge 0 1 3)])))).
Proof.
  apply (calculateAndDisplayMST_alert 0 2 [edge_row (mkEdge 0 1 3)]
           (mkRow (Some 0) (Some 2) (Some 1)) [mkRow None None None]).
  - repeat constructor. exists (mkEdge 0 1 3).
    split; [reflexivity|]. split; simpl; lia.
  - intros (e & He & [_ Hd]). injection He as _ Hd' _.
    rewrite <- Hd' in Hd. lia.
Defined.

(** X14.  When every row passes the checks, the page shows a spanning
    forest of the graph entered and, as total, its weights added one after
    the other as doubles; when the weights entered, in absolute value, sum
    to at most [2^53] this total is the weight of the forest and the
    minimum weight of a spanning forest.  The note about connectivity is
    shown when, and only when, two of the [V] vertices are not
    connected. *)
Theorem calculateAndDisplayMST_display V es :
  0 <= V -> Forall (in_range V) es ->
  exists total_cost mst_edges note,
    (forall fuel, (length es + 2 <= fuel)%nat ->
       calculateAndDisplayMST fuel V (map edge_row es) =
       Some (Normal (Displayed total_cost mst_edges note))) /\
    spanning_forest es mst_edges /\
    total_cost = js_sum (Fin 0) mst_edges /\
    (sum_abs es <= 2 ^ 53 ->
     total_cost = Fin (sum_weights mst_edges) /\
     minimum_spanning_forest_weight es (sum_weights mst_edges)) /\
    (note = false <->
     forall u v, 0 <= u < V -> 0 <= v < V -> conn es u v).
Proof.
  intros HV Hr.
  pose proof (sort_perm by_weight es) as HP.
  destruct (greedy_minimum V (sort by_weight es)) as [Hsf Hmin].
  { eapply Permutation_Forall; eassumption. }
  { apply sort_sorted. }
  assert (Hsf' : spanning_forest es (greedy V (sort by_weight es) [])).
  { eapply spanning_forest_perm; [apply Permutation_sym, HP|exact Hsf]. }
  eexists _, _, _. split; [|split; [|split; [|split]]].
  - intros fuel Hfuel. unfold calculateAndDisplayMST.
    rewrite (collect_edges_valid V es Hr). simpl app.
    rewrite (kruskalMST_valid V es fuel HV Hr Hfuel). simpl. reflexivity.
  - exact Hsf'.
  - reflexivity.
  - intros Hw. split.
    + apply (js_sum_exact _ 0).
      pose proof (greedy_sum_abs V (sort by_weight es) []) as Hle.
      rewrite <- (sum_abs_perm _ _ HP) in Hle. simpl in *. lia.
    + split.
      * eexists. split; [exact Hsf'|reflexivity].
      * intros F HF. apply Hmin. eapply spanning_forest_perm; eassumption.
  - destruct (Z.ltb_spec 1 V) as [H1|H1].
    + destruct (spanning_forest_size V es _ ltac:(lia) Hr Hsf') as [Hle Hiff].
      rewrite andb_true_r, <- Hiff, Z.ltb_ge. lia.
    + rewrite andb_false_r. split; [|reflexivity].
      intros _ u v Hu Hv. replace v with u by lia. apply conn_refl.
Qed.

Lemma calculateAndDisplayMST_display_witness :
  exists total_cost mst_edges note,
    (forall fuel, (length scenario1 + 2 <= fuel)%nat ->
       calculateAndDisplayMST fuel 4 (map edge_row scenario1) =
       Some (Normal (Displayed total_cost mst_edges note))) /\
    spanning_forest scenario1 mst_edges /\
    total_cost = js_sum (Fin 0) mst_edges /\
    (sum_abs scenario1 <= 2 ^ 53 ->
     total_cost = Fin (sum_weights mst_edges) /\
     minimum_spanning_forest_weight scenario1 (sum_weights mst_edges)) /\
    (note = false <->
     forall u v, 0 <= u < 4 -> 0 <= v < 4 -> conn scenario1 u v).
Proof.
  apply (calculateAndDisplayMST_display 4 scenario1).
  - lia.
  - repeat constructor; simpl; lia.
Defined.

(** * What [union] does to the sets *)

(** What a call of [union] that has returned has done. *)
Lemma union_merges_step n s us fuel x y s' b :
  reachable n s us -> 0 <= x < n -> 0 <= y < n ->
  union fuel s (Num x) (Num y) = Some (s', b) ->
  exists rx ry r',
    repr s (Num x) rx /\ repr s (Num y) ry /\
    (r' = rx \/ r' = ry) /\
    (b = true <-> rx <> ry) /\
    forall u ru,
      repr s u ru ->
      repr s' u (if decide (ru = rx \/ ru = ry) then r' else ru).
Proof.
  intros H Hx Hy Hu.
  destruct (reachable_inv n s us H) as [[B ([h Hr] & _)] _].
  assert (Hnum : forall i, Num i <> NaN) by discriminate.
  apply (fun H => union_mono _ _ _ _ _ H (fuel + S B)%nat) in Hu; [|lia].
  destruct (union_cases s h B (fuel + S B) (Num x) (Num y) Hr
              (Hnum x) (Hnum y))
    as (s2 & rx & ry & Hc & Hrx & Hry & Hcases); [lia|].
  assert (Hrootx : get (parent s2) rx = rx).
  { eapply compression_root; [exact Hc|]. eapply repr_is_root, Hrx. }
  assert (Hrooty : get (parent s2) ry = ry).
  { eapply compression_root; [exact Hc|]. eapply repr_is_root, Hry. }
  assert (Hlink : forall c p,
            (c = ry /\ p = rx) \/ (c = rx /\ p = ry) -> rx <> ry ->
            forall u ru, repr s u ru ->
              repr (set_parent s2 c p) u
                   (if decide (ru = rx \/ ru = ry) then p else ru)).
  { intros c p Hcp Hne u ru Hru.
    apply (compression_repr s s2 Hc) in Hru.
    assert (Hl : repr (set_parent s2 c p) u (redirect c p ru)).
    { destruct Hcp as [[-> ->]|[-> ->]]; apply link_repr;
        assumption || congruence. }
    unfold redirect in Hl.
    destruct Hcp as [[-> ->]|[-> ->]];
      destruct (decide (ru = _)), (decide (_ \/ _)) as [[?|?]|?];
      subst; try tauto; congruence. }
  exists rx, ry.
  destruct Hcases as [[E Hu']|[Hne [[_ Hu']|[(_ & _ & Hu')|(_ & _ & Hu')]]]];
    rewrite Hu in Hu'; injection Hu' as -> ->.
  - exists rx. split; [exact Hrx|]. split; [exact Hry|].
    split; [left; reflexivity|]. split.
    + split; [discriminate|]. intros Hne. destruct (Hne E).
    + intros u ru Hru. apply (compression_repr s s2 Hc) in Hru.
      destruct (decide _) as [[->| ->]|_]; congruence.
  - exists rx. split; [exact Hrx|]. split; [exact Hry|].
    split; [left; reflexivity|]. split; [tauto|]. apply Hlink; auto.
  - exists ry. split; [exact Hrx|]. split; [exact Hry|].
    split; [right; reflexivity|]. split; [tauto|]. apply Hlink; auto.
  - exists rx. split; [exact Hrx|]. split; [exact Hry|].
    split; [left; reflexivity|]. split; [tauto|]. intros u ru Hru.
    apply repr_set_rank. apply Hlink; auto.
Qed.

(** X15.  On a structure reached by calls in range, [union(x, y)] returns
    and merges the set of [x] and the set of [y], leaving every other set
    alone: with [rx] and [ry] the roots before the call, the call returns
    [true] exactly when they differ, and afterwards every vertex whose root
    was [rx] or [ry] has one and the same of the two as its root, every
    other vertex the root it had. *)
Theorem union_merges n s us x y :
  reachable n s us -> 0 <= x < n -> 0 <= y < n ->
  exists rx ry,
    repr s (Num x) rx /\ repr s (Num y) ry /\
    forall fuel, (Z.to_nat n <= fuel)%nat ->
      exists s' b r',
        union fuel s (Num x) (Num y) = Some (s', b) /\
        (r' = rx \/ r' = ry) /\
        (b = true <-> rx <> ry) /\
        forall u ru,
          repr s u ru ->
          repr s' u (if decide (ru = rx \/ ru = ry) then r' else ru).
Proof.
  intros H Hx Hy.
  destruct (reachable_inv n s us H) as [[B ([h Hr] & _)] _].
  destruct (repr_exists s h B (Num x) Hr) as [rx Hrx].
  destruct (repr_exists s h B (Num y) Hr) as [ry Hry].
  exists rx, ry. split; [exact Hrx|]. split; [exact Hry|].
  intros fuel Hfuel.
  destruct (reachable_union_returns n s us fuel x y H Hx Hy Hfuel)
    as (s' & b & Hu).
  destruct (union_merges_step n s us fuel x y s' b H Hx Hy Hu)
    as (rx0 & ry0 & r' & Hrx0 & Hry0 & Hr' & Hb & Hall).
  rewrite (repr_det _ _ _ Hrx0 _ Hrx) in *.
  rewrite (repr_det _ _ _ Hry0 _ Hry) in *.
  exists s', b, r'. auto.
Qed.

Lemma union_merges_witness :
  exists rx ry,
    repr (after_union (after_union (fresh 4) 0 1) 2 3) (Num 0) rx /\
    repr (after_union (after_union (fresh 4) 0 1) 2 3) (Num 2) ry /\
    forall fuel, (Z.to_nat 4 <= fuel)%nat ->
      exists s' b r',
        union fuel (after_union (after_union (fresh 4) 0 1) 2 3)
              (Num 0) (Num 2) = Some (s', b) /\
        (r' = rx \/ r' = ry) /\
        (b = true <-> rx <> ry) /\
        forall u ru,
          repr (after_union (after_union (fresh 4) 0 1) 2 3) u ru ->
          repr s' u (if decide (ru = rx \/ ru = ry) then r' else ru).
Proof.
  apply (union_merges 4 (after_union (after_union (fresh 4) 0 1) 2 3)
           [(2, 3); (0, 1)] 0 2).
  - exact two_pairs_reachable.
  - lia.
  - lia.
Defined.
